(** * Soft-body procedural animation: the Verlet ring ([Blob]) and the
      angle-constrained two-bone limb ([Limb])

    Shallow embedding of [src/game/soft-body-proc-anim-main/Limb.ts] and of
    the solver part of [src/game/soft-body-proc-anim-main/Blob.ts].

    The program computes on JavaScript numbers.  Two readings are given:

    - the exact reading, at top level: a number is a real ([R]); this is the
      reading in which the geometric statements of the specification
      ("equal within epsilon") are meant;
    - the binary64 reading, in [Module Float64]: a number is an IEEE 754
      double ([PrimFloat.float]), every operation rounds as the program's
      does; it is used where a statement is about exactness or finiteness.

    [Phaser.Math.Vector2], [Phaser.Math.Clamp] and
    [Phaser.Math.Distance.Between] belong to the Phaser library; they are
    transcribed from Phaser 3 (math/Vector2.js, math/Clamp.js,
    math/distance/DistanceBetween.js). *)

From Stdlib Require Import Reals Lra Lia ZArith.
From Stdlib Require Floats.
From stdpp Require Import base list.

Local Open Scope R_scope.

(* ===================================================================== *)
(** * Part I. The exact reading                                           *)
(* ===================================================================== *)

(** ** Phaser helpers *)

(** [Math.atan2(y, x)] on finite arguments (ECMAScript 21.3.2.8). *)
Definition Math_atan2 (y x : R) : R :=
  if Rlt_dec 0 x then atan (y / x)
  else if Rlt_dec x 0 then
    if Rle_dec 0 y then atan (y / x) + PI else atan (y / x) - PI
  else if Rlt_dec 0 y then PI / 2
  else if Rlt_dec y 0 then - (PI / 2)
  else 0.

(** [Phaser.Math.Clamp(value, min, max)]:
    [Math.max(min, Math.min(max, value))]. *)
Definition Clamp (value min max : R) : R := Rmax min (Rmin max value).

(** [Phaser.Math.Distance.Between(x1, y1, x2, y2)]. *)
Definition Distance_Between (x1 y1 x2 y2 : R) : R :=
  let dx := x1 - x2 in
  let dy := y1 - y2 in
  sqrt (dx * dx + dy * dy).

Module Vector2.

Record t : Type := mk { x : R; y : R }.

Definition add (v src : t) : t := mk (x v + x src) (y v + y src).

Definition subtract (v src : t) : t := mk (x v - x src) (y v - y src).

(** [scale] multiplies when [isFinite(value)], which every real is. *)
Definition scale (v : t) (value : R) : t := mk (x v * value) (y v * value).

Definition length (v : t) : R := sqrt (x v * x v + y v * y v).

(** [normalize] leaves the vector alone unless its squared length is
    positive. *)
Definition normalize (v : t) : t :=
  let len := x v * x v + y v * y v in
  if Rgt_dec len 0 then
    let len' := 1 / sqrt len in
    mk (x v * len') (y v * len')
  else v.

Definition setLength (v : t) (length : R) : t := scale (normalize v) length.

Definition rotate (v : t) (delta : R) : t :=
  let c := cos delta in
  let s := sin delta in
  mk (c * x v - s * y v) (s * x v + c * y v).

(** [angle]: [Math.atan2(y, x)], lifted by [2 * Math.PI] when negative. *)
Definition angle (v : t) : R :=
  let a := Math_atan2 (y v) (x v) in
  if Rlt_dec a 0 then a + 2 * PI else a.

End Vector2.

(** The scene supplies the world size ([scene.scale.width], [.height]) and
    the pointer: [pointerWorld] is the pointer's world position while it is
    down, and [None] (null) otherwise. *)
Record Scene : Type := mkScene {
  width : R;
  height : R;
  pointerWorld : option Vector2.t
}.

(** ** Limb.ts: angle utilities *)

Definition TWO_PI : R := PI * 2.

(** [while (angle >= TWO_PI) angle -= TWO_PI;] with a bound on the number of
    rounds; [None] when the bound is exhausted before the loop exits. *)
Fixpoint whileAbove (fuel : nat) (angle : R) : option R :=
  if Rge_dec angle TWO_PI then
    match fuel with
    | O => None
    | S fuel' => whileAbove fuel' (angle - TWO_PI)
    end
  else Some angle.

(** [while (angle < 0) angle += TWO_PI;] likewise. *)
Fixpoint whileBelow (fuel : nat) (angle : R) : option R :=
  if Rlt_dec angle 0 then
    match fuel with
    | O => None
    | S fuel' => whileBelow fuel' (angle + TWO_PI)
    end
  else Some angle.

Definition simplifyAngle_fuel (fuel : nat) (angle : R) : option R :=
  match whileAbove fuel angle with
  | Some angle' => whileBelow fuel angle'
  | None => None
  end.

(** A number of rounds that is enough for [angle]: one more than the
    magnitude of the integer just above [angle / TWO_PI]. *)
Definition rounds (angle : R) : nat := S (Z.to_nat (Z.abs (up (angle / TWO_PI)))).

(** [simplifyAngle]: both loops run to their exit ([simplifyAngle_exits]
    shows that [rounds angle] is enough, so the fallback is never taken). *)
Definition simplifyAngle (angle : R) : R :=
  match simplifyAngle_fuel (rounds angle) angle with
  | Some angle' => angle'
  | None => angle
  end.

Definition relativeAngleDiff (angle anchor : R) : R :=
  (* Rotate so that PI is at the anchor to avoid seam *)
  let angle := simplifyAngle (angle + PI - anchor) in
  let anchor := PI in
  anchor - angle.

Definition constrainAngle (angle anchor constraint : R) : R :=
  if Rle_dec (Rabs (relativeAngleDiff angle anchor)) constraint then
    simplifyAngle angle
  else if Rgt_dec (relativeAngleDiff angle anchor) constraint then
    simplifyAngle (anchor - constraint)
  else
    simplifyAngle (anchor + constraint).

(** ** Limb.ts: [LimbPoint] *)

Module LimbPoint.

Record t : Type := mk {
  pos : Vector2.t;
  ppos : Vector2.t;
  angle : R
}.

Definition constructor (p : Vector2.t) : t := mk p p 0.

Definition verletIntegrate (damping : R) (this : t) : t :=
  let temp := pos this in
  let vel := Vector2.scale (Vector2.subtract (pos this) (ppos this)) damping in
  mk (Vector2.add (pos this) vel) temp (angle this).

Definition applyConstraint (anchor : Vector2.t) (normal distance angleRange
    angleOffset : R) (this : t) : t :=
  let anchorAngle := normal + angleOffset in
  let curAngle := Vector2.angle (Vector2.subtract anchor (pos this)) in
  let angle' := constrainAngle curAngle anchorAngle angleRange in
  let dir := Vector2.setLength (Vector2.mk (cos angle') (sin angle')) distance in
  mk (Vector2.subtract anchor dir) (ppos this) angle'.

Definition applyGravity (g : R) (this : t) : t :=
  mk (Vector2.mk (Vector2.x (pos this)) (Vector2.y (pos this) + g))
     (ppos this) (angle this).

Definition keepInBounds (width height : R) (this : t) : t :=
  mk (Vector2.mk (Clamp (Vector2.x (pos this)) 0 width)
                 (Clamp (Vector2.y (pos this)) 0 height))
     (ppos this) (angle this).

End LimbPoint.

(** ** Limb.ts: [Limb] *)

(** How a [new] expression completes: with the object, or by a thrown
    exception. *)
Inductive completion (A : Type) : Type :=
  | Normal (a : A)
  | Throw.
Arguments Normal {A} a.
Arguments Throw {A}.

Module Limb.

Record t : Type := mk {
  elbow : LimbPoint.t;
  foot : LimbPoint.t;
  distance : R;
  elbowRange : R;
  elbowOffset : R;
  footRange : R;
  footOffset : R
}.

(** The constructor body has no [throw] and no check of its arguments. *)
Definition constructor (origin : Vector2.t) (distance elbowRange elbowOffset
    footRange footOffset : R) : completion t :=
  let elbowPos := Vector2.add origin (Vector2.mk 0 distance) in
  Normal (mk (LimbPoint.constructor elbowPos)
             (LimbPoint.constructor (Vector2.add elbowPos (Vector2.mk 0 distance)))
             distance elbowRange elbowOffset footRange footOffset).

(** The elbow after integration, gravity and its constraint, before it is
    kept in bounds. *)
Definition elbowConstrained (this : t) (anchor : Vector2.t) (normal : R)
    : LimbPoint.t :=
  LimbPoint.applyConstraint anchor normal (distance this) (elbowRange this)
    (elbowOffset this)
    (LimbPoint.applyGravity 1 (LimbPoint.verletIntegrate 0.95 (elbow this))).

(** The foot likewise, constrained against the elbow [e] already placed. *)
Definition footConstrained (this : t) (e : LimbPoint.t) : LimbPoint.t :=
  LimbPoint.applyConstraint (LimbPoint.pos e) (LimbPoint.angle e)
    (distance this) (footRange this) (footOffset this)
    (LimbPoint.applyGravity 1 (LimbPoint.verletIntegrate 0.95 (foot this))).

Definition resolve (scene : Scene) (anchor : Vector2.t) (normal : R)
    (this : t) : t :=
  let width := width scene in
  let height := height scene in
  let elbow' :=
    LimbPoint.keepInBounds width height (elbowConstrained this anchor normal) in
  let foot' :=
    LimbPoint.keepInBounds width height (footConstrained this elbow') in
  mk elbow' foot' (distance this) (elbowRange this) (elbowOffset this)
     (footRange this) (footOffset this).

End Limb.

(** ** Blob.ts: [BlobPoint], a point of the blob boundary *)

Module BlobPoint.

Record t : Type := mk {
  pos : Vector2.t;
  ppos : Vector2.t;
  displacement : Vector2.t;
  displacementWeight : nat
}.

Definition constructor (p : Vector2.t) : t := mk p p (Vector2.mk 0 0) 0.

Definition verletIntegrate (damping : R) (this : t) : t :=
  let temp := pos this in
  let vel := Vector2.scale (Vector2.subtract (pos this) (ppos this)) damping in
  mk (Vector2.add (pos this) vel) temp (displacement this)
     (displacementWeight this).

Definition applyGravity (g : R) (this : t) : t :=
  mk (Vector2.mk (Vector2.x (pos this)) (Vector2.y (pos this) + g))
     (ppos this) (displacement this) (displacementWeight this).

Definition accumulateDisplacement (offset : Vector2.t) (this : t) : t :=
  mk (pos this) (ppos this) (Vector2.add (displacement this) offset)
     (displacementWeight this + 1).

Definition applyDisplacement (this : t) : t :=
  if (0 <? displacementWeight this)%nat then
    let d := Vector2.scale (displacement this) (1 / INR (displacementWeight this)) in
    mk (Vector2.add (pos this) d) (ppos this) (Vector2.mk 0 0) 0
  else this.

Definition keepInBounds (width height : R) (this : t) : t :=
  mk (Vector2.mk (Clamp (Vector2.x (pos this)) 0 width)
                 (Clamp (Vector2.y (pos this)) 0 height))
     (ppos this) (displacement this) (displacementWeight this).

Definition collideWithPointer (pointerWorld : option Vector2.t) (this : t) : t :=
  match pointerWorld with
  | None => this
  | Some pointerWorld =>
      let dist :=
        Distance_Between (Vector2.x (pos this)) (Vector2.y (pos this))
          (Vector2.x pointerWorld) (Vector2.y pointerWorld) in
      let radius := 100 in
      if Rlt_dec dist radius then
        let diff := Vector2.setLength (Vector2.subtract (pos this) pointerWorld) radius in
        mk (Vector2.add pointerWorld diff) (ppos this) (displacement this)
           (displacementWeight this)
      else this
  end.

End BlobPoint.

(** ** Blob.ts: [Blob] (the solver; rendering is left out) *)

Module Blob.

Record t : Type := mk {
  points : list BlobPoint.t;
  radius : R;
  area : R;
  circumference : R;
  chordLength : R
}.

(** The point pushed at round [i] of the constructor's loop. *)
Definition initialPoint (origin : Vector2.t) (numPoints : Z) (radius : R)
    (i : nat) : BlobPoint.t :=
  let angle := (PI * 2 * INR i) / IZR numPoints - PI / 2 in
  let offset := Vector2.mk (cos angle * radius) (sin angle * radius) in
  BlobPoint.constructor (Vector2.add origin offset).

(** [numPoints] is taken to be an integer; the loop [for (i = 0; i <
    numPoints; i++)] then runs [Z.to_nat numPoints] rounds (none when
    [numPoints <= 0]).  The body has no [throw] and no check of its
    arguments. *)
Definition constructor (origin : Vector2.t) (numPoints : Z) (radius
    puffiness : R) : completion t :=
  let area := radius * radius * PI * puffiness in
  let circumference := radius * PI * 2 in
  let chordLength := circumference / IZR numPoints in
  Normal (mk (map (initialPoint origin numPoints radius)
                  (seq 0 (Z.to_nat numPoints)))
             radius area circumference chordLength).

(** One term of the shoelace sum of [getArea]. *)
Definition areaTerm (pts : list BlobPoint.t) (i : nat) : R :=
  match pts !! i, pts !! ((i + 1) mod length pts)%nat with
  | Some cur, Some next =>
      let cur := BlobPoint.pos cur in
      let next := BlobPoint.pos next in
      ((Vector2.x cur - Vector2.x next) * (Vector2.y cur + Vector2.y next)) / 2
  | _, _ => 0
  end.

Definition getArea (pts : list BlobPoint.t) : R :=
  fold_left (fun area i => area + areaTerm pts i) (seq 0 (length pts)) 0.

(** Body of the distance-constraint loop at index [i].  The two
    accumulations are made one after the other on the shared array, as in
    the source, so that [cur] and [next] may be the same point. *)
Definition distanceConstraint (chordLength : R) (pts : list BlobPoint.t)
    (i : nat) : list BlobPoint.t :=
  let j := ((i + 1) mod length pts)%nat in
  match pts !! i, pts !! j with
  | Some cur, Some next =>
      let diff := Vector2.subtract (BlobPoint.pos next) (BlobPoint.pos cur) in
      let mag := Vector2.length diff in
      if Rgt_dec mag chordLength then
        let error := (mag - chordLength) / 2 in
        let offset := Vector2.setLength diff error in
        let negOffset := Vector2.scale offset (-1) in
        alter (BlobPoint.accumulateDisplacement negOffset) j
          (alter (BlobPoint.accumulateDisplacement offset) i pts)
      else pts
  | _, _ => pts
  end.

Definition distanceConstraints (chordLength : R) (pts : list BlobPoint.t)
    : list BlobPoint.t :=
  fold_left (distanceConstraint chordLength) (seq 0 (length pts)) pts.

(** The normal accumulated on point [i] by the dilation loop.  The index
    [(i - 1 + n) % n] is written [(i + n - 1) mod n] on naturals. *)
Definition dilationNormal (offset : R) (pts : list BlobPoint.t) (i : nat)
    : option Vector2.t :=
  let n := length pts in
  match pts !! ((i + n - 1) mod n)%nat, pts !! ((i + 1) mod n)%nat with
  | Some prev, Some next =>
      let secant := Vector2.subtract (BlobPoint.pos next) (BlobPoint.pos prev) in
      Some (Vector2.setLength (Vector2.rotate secant (- PI / 2)) offset)
  | _, _ => None
  end.

Definition dilate (offset : R) (pts : list BlobPoint.t) (i : nat)
    : list BlobPoint.t :=
  match dilationNormal offset pts i with
  | Some normal => alter (BlobPoint.accumulateDisplacement normal) i pts
  | None => pts
  end.

Definition dilation (area circumference : R) (pts : list BlobPoint.t)
    : list BlobPoint.t :=
  let error := area - getArea pts in
  let offset := error / circumference in
  fold_left (dilate offset) (seq 0 (length pts)) pts.

(** The collision loop: bounds first, then the pointer. *)
Definition collide (scene : Scene) (p : BlobPoint.t) : BlobPoint.t :=
  let p := BlobPoint.keepInBounds (width scene) (height scene) p in
  match pointerWorld scene with
  | Some pw => BlobPoint.collideWithPointer (Some pw) p
  | None => p
  end.

(** One round of the relaxation loop ([for (let j = 0; ...)]). *)
Definition relax (scene : Scene) (this : t) (pts : list BlobPoint.t)
    : list BlobPoint.t :=
  let pts := distanceConstraints (chordLength this) pts in
  let pts := dilation (area this) (circumference this) pts in
  let pts := map BlobPoint.applyDisplacement pts in
  map (collide scene) pts.

Fixpoint relaxation (iterations : nat) (scene : Scene) (this : t)
    (pts : list BlobPoint.t) : list BlobPoint.t :=
  match iterations with
  | O => pts
  | S k => relaxation k scene this (relax scene this pts)
  end.

Definition update (scene : Scene) (iterations : nat) (this : t) : t :=
  (* Verlet step and gravity *)
  let pts :=
    map (fun p => BlobPoint.applyGravity 1 (BlobPoint.verletIntegrate 0.99 p))
        (points this) in
  mk (relaxation iterations scene this pts)
     (radius this) (area this) (circumference this) (chordLength this).

End Blob.

(* ===================================================================== *)
(** * Part II. The binary64 reading                                       *)
(* ===================================================================== *)

(** The same functions on IEEE 754 doubles, for the statements that are
    about rounding or about non-finite values.  [Math.cos] and [Math.sin]
    are implementation-approximated in ECMAScript; where a function needs
    them they are arguments. *)

Module Float64.

Import Floats.PrimFloat.
Local Open Scope float_scope.

(** [Math.PI], the double nearest to pi. *)
Definition Math_PI : float := 0x1.921fb54442d18p+1.

(** [Phaser.Math.Distance.Between]. *)
Definition Distance_Between (x1 y1 x2 y2 : float) : float :=
  let dx := x1 - x2 in
  let dy := y1 - y2 in
  sqrt (dx * dx + dy * dy).

Module Vector2.

Record t : Type := mk { x : float; y : float }.

Definition add (v src : t) : t := mk (x v + x src) (y v + y src).

Definition subtract (v src : t) : t := mk (x v - x src) (y v - y src).

(** [scale]: [if (isFinite(value)) { x *= value; y *= value } else
    { x = 0; y = 0 }]. *)
Definition scale (v : t) (value : float) : t :=
  if is_finite value then mk (x v * value) (y v * value) else mk 0 0.

Definition length (v : t) : float := sqrt (x v * x v + y v * y v).

Definition normalize (v : t) : t :=
  let len := x v * x v + y v * y v in
  if 0 <? len then
    let len' := 1 / sqrt len in
    mk (x v * len') (y v * len')
  else v.

Definition setLength (v : t) (length : float) : t := scale (normalize v) length.

(** [rotate(delta)], given [c = Math.cos(delta)] and [s = Math.sin(delta)]. *)
Definition rotate (c s : float) (v : t) : t :=
  mk (c * x v - s * y v) (s * x v + c * y v).

End Vector2.

(** *** Limb.ts: angle utilities *)

Definition TWO_PI : float := Math_PI * 2.

Fixpoint whileAbove (fuel : nat) (angle : float) : option float :=
  if TWO_PI <=? angle then
    match fuel with
    | O => None
    | S fuel' => whileAbove fuel' (angle - TWO_PI)
    end
  else Some angle.

Fixpoint whileBelow (fuel : nat) (angle : float) : option float :=
  if angle <? 0 then
    match fuel with
    | O => None
    | S fuel' => whileBelow fuel' (angle + TWO_PI)
    end
  else Some angle.

(** [None]: the loops have not exited within [fuel] rounds each. *)
Definition simplifyAngle (fuel : nat) (angle : float) : option float :=
  match whileAbove fuel angle with
  | Some angle' => whileBelow fuel angle'
  | None => None
  end.

Definition relativeAngleDiff (fuel : nat) (angle anchor : float) : option float :=
  match simplifyAngle fuel (angle + Math_PI - anchor) with
  | Some angle' => let anchor := Math_PI in Some (anchor - angle')
  | None => None
  end.

(** The source evaluates [relativeAngleDiff(angle, anchor)] in both tests,
    on the same arguments; it is evaluated once here. *)
Definition constrainAngle (fuel : nat) (angle anchor constraint : float)
    : option float :=
  match relativeAngleDiff fuel angle anchor with
  | None => None
  | Some d =>
      if abs d <=? constraint then simplifyAngle fuel angle
      else if constraint <? d then simplifyAngle fuel (anchor - constraint)
      else simplifyAngle fuel (anchor + constraint)
  end.

(** *** Limb.ts: the angle that [LimbPoint.applyConstraint] stores

    [curAngle] stands for [anchor.clone().subtract(this.pos).angle()]. *)
Definition solvedAngle (fuel : nat) (curAngle normal angleRange angleOffset : float)
    : option float :=
  let anchorAngle := normal + angleOffset in
  constrainAngle fuel curAngle anchorAngle angleRange.

(** *** Blob.ts *)

Module BlobPoint.

Record t : Type := mk {
  pos : Vector2.t;
  ppos : Vector2.t;
  displacement : Vector2.t;
  displacementWeight : float
}.

Definition accumulateDisplacement (offset : Vector2.t) (this : t) : t :=
  mk (pos this) (ppos this) (Vector2.add (displacement this) offset)
     (displacementWeight this + 1).

Definition collideWithPointer (pointerWorld : option Vector2.t) (this : t) : t :=
  match pointerWorld with
  | None => this
  | Some pointerWorld =>
      let dist :=
        Distance_Between (Vector2.x (pos this)) (Vector2.y (pos this))
          (Vector2.x pointerWorld) (Vector2.y pointerWorld) in
      let radius := 100 in
      if dist <? radius then
        let diff := Vector2.setLength (Vector2.subtract (pos this) pointerWorld) radius in
        mk (Vector2.add pointerWorld diff) (ppos this) (displacement this)
           (displacementWeight this)
      else this
  end.

End BlobPoint.

Module Blob.

(** The rest quantities computed by the constructor. *)
Definition area (radius puffiness : float) : float :=
  radius * radius * Math_PI * puffiness.

Definition circumference (radius : float) : float := radius * Math_PI * 2.

Definition chordLength (radius numPoints : float) : float :=
  circumference radius / numPoints.

(** The normal that the dilation loop accumulates on a point whose
    neighbours are [prev] and [next]; [c] and [s] stand for
    [Math.cos(-Math.PI / 2)] and [Math.sin(-Math.PI / 2)]. *)
Definition dilationNormal (c s offset : float) (prev next : BlobPoint.t)
    : Vector2.t :=
  let secant := Vector2.subtract (BlobPoint.pos next) (BlobPoint.pos prev) in
  Vector2.setLength (Vector2.rotate c s secant) offset.

End Blob.

(** Inputs of the statements: a repulsion point at [(20, 20)], and a
    boundary point that has fallen onto it from [(20, 19)]. *)
Definition pointerOnPoint : Vector2.t := Vector2.mk 20 20.

Definition fallenPoint : BlobPoint.t :=
  BlobPoint.mk (Vector2.mk 20 20) (Vector2.mk 20 19) (Vector2.mk 0 0) 0.

End Float64.

(* ===================================================================== *)
(** * Part III. Vocabulary of the statements, and the inputs they use     *)
(* ===================================================================== *)

(** ** Predicates *)

(** [r] is [a] reduced modulo [TWO_PI]: the representative in
    [[0, TWO_PI)] of the class of [a]. *)
Definition reduced (a r : R) : Prop :=
  0 <= r < TWO_PI /\ exists k : Z, r = a + IZR k * TWO_PI.

(** [d] is a shortest signed angular offset of [angle] from [anchor]: it
    takes [anchor] to [angle] up to whole turns and is at most a half turn.
    It is unique except when [angle] is opposite to [anchor], where both
    [PI] and [- PI] qualify. *)
Definition angularOffset (angle anchor d : R) : Prop :=
  - PI <= d <= PI /\ exists k : Z, angle = anchor + d + IZR k * TWO_PI.



(** A position is inside the world of the scene. *)
Definition inBounds (scene : Scene) (v : Vector2.t) : Prop :=
  0 <= Vector2.x v <= width scene /\ 0 <= Vector2.y v <= height scene.

(** The distance of a point to the pointer, as [collideWithPointer]
    measures it. *)
Definition pointerDistance (p : BlobPoint.t) (pw : Vector2.t) : R :=
  Distance_Between (Vector2.x (BlobPoint.pos p)) (Vector2.y (BlobPoint.pos p))
    (Vector2.x pw) (Vector2.y pw).

(** The accumulators of a point are clear, as they are between two
    rounds. *)
Definition cleared (q : BlobPoint.t) : Prop :=
  BlobPoint.displacement q = Vector2.mk 0 0 /\
  BlobPoint.displacementWeight q = 0%nat.

(** A distance that is clear of underflow in binary64: the square of a
    distance of [2^-500] or more is a normal double, so that
    [Vector2.normalize] finds the direction as in exact arithmetic, up to
    rounding.  The square of a distance under about [2^-537] rounds to zero,
    and [normalize] then leaves the vector as it is. *)
Definition underflowRadius : R := / 2 ^ 500.

(** A double is a zero when it is [+0] or [-0]. *)
Definition isZero (x : PrimFloat.float) : Prop :=
  exists s, FloatOps.Prim2SF x = SpecFloat.S754_zero s.

(** The double [TWO_PI] in its specification: [twoPiMantissa * 2^-50]. *)
Definition twoPiMantissaPos : positive := 7074237752028440.

Definition twoPiMantissa : Z := Zpos twoPiMantissaPos.

Definition SF_TWO_PI : SpecFloat.spec_float :=
  SpecFloat.S754_finite false twoPiMantissaPos (-50).

(** ** A limb *)

(** The limb of the specification's scenario:
    [new Limb((0, 0), 56, PI / 4, 0, PI / 5, - PI / 4)]. *)
Definition scenarioLimb : Limb.t :=
  Limb.mk (LimbPoint.constructor (Vector2.add (Vector2.mk 0 0) (Vector2.mk 0 56)))
          (LimbPoint.constructor
             (Vector2.add (Vector2.add (Vector2.mk 0 0) (Vector2.mk 0 56))
                (Vector2.mk 0 56)))
          56 (PI / 4) 0 (PI / 5) (- PI / 4).

(** A world of 2000 by 2000, pointer up. *)
Definition scenarioScene : Scene := mkScene 2000 2000 None.

(** ** A ring whose three points coincide *)

(** A boundary point at [(20, 19)], at rest. *)
Definition restingPoint : BlobPoint.t := BlobPoint.constructor (Vector2.mk 20 19).

(** The rest quantities of [new Blob(scene, origin, 3, 50, 1)], with the
    three points of the ring all at [(20, 19)]. *)
Definition coincidentBlob : Blob.t :=
  Blob.mk [restingPoint; restingPoint; restingPoint]
    50 (50 * 50 * PI * 1) (50 * PI * 2) (50 * PI * 2 / IZR 3).

(** The point after integration and gravity: one unit lower. *)
Definition fallenPoint : BlobPoint.t :=
  BlobPoint.mk (Vector2.mk 20 20) (Vector2.mk 20 19) (Vector2.mk 0 0) 0.

(** The pointer held 30 units to the right of where the three points fall. *)
Definition pointerBeside : Scene := mkScene 1000 1000 (Some (Vector2.mk 50 20)).

(** The pointer held exactly where the three points fall. *)
Definition pointerOnPoint : Scene := mkScene 1000 1000 (Some (Vector2.mk 20 20)).

(** ** A ring stretched along a horizontal line *)

(** The rest quantities of [new Blob(scene, origin, 3, 50, 1)], with the
    three points of the ring at rest on a horizontal line, 1000 apart. *)
Definition stretchedBlob : Blob.t :=
  Blob.mk [BlobPoint.constructor (Vector2.mk 1000 100);
           BlobPoint.constructor (Vector2.mk 2000 100);
           BlobPoint.constructor (Vector2.mk 3000 100)]
    50 (50 * 50 * PI * 1) (50 * PI * 2) (50 * PI * 2 / IZR 3).

(** A world of 10000 by 10000, pointer up. *)
Definition wideScene : Scene := mkScene 10000 10000 None.

(** ** A square ring with the pointer at its centre *)




(** ** The corrections of one round *)








(** ** A ring of one point and negative radius *)


(** ** Other inputs *)

(** The blob built by [new Blob(scene, (100, 100), 3, 50, 1)]. *)
Definition threePointBlob : Blob.t :=
  Blob.mk (map (Blob.initialPoint (Vector2.mk 100 100) 3 50) (seq 0 3))
    50 (50 * 50 * PI * 1) (50 * PI * 2) (50 * PI * 2 / IZR 3).



(* ===================================================================== *)
(** * Part IV. Facts about the exact reading                              *)
(* ===================================================================== *)

(** Equality of two vectors whose coordinates are linear expressions. *)
Ltac vec_eq :=
  unfold Vector2.subtract, Vector2.add, Vector2.scale;
  cbn [Vector2.x Vector2.y BlobPoint.pos BlobPoint.ppos BlobPoint.displacement
       BlobPoint.accumulateDisplacement];
  f_equal; lra.

(** ** [simplifyAngle]: the loops exit, and what they return *)

Lemma TWO_PI_pos : 0 < TWO_PI.
Proof. unfold TWO_PI. pose proof PI_RGT_0. lra. Qed.

Lemma reduced_unique (a r1 r2 : R) : reduced a r1 -> reduced a r2 -> r1 = r2.
Proof.
  intros [[H1 H1'] [k1 E1]] [[H2 H2'] [k2 E2]].
  pose proof TWO_PI_pos as Hp.
  assert (Hk : IZR (k1 - k2) * TWO_PI = r1 - r2) by (rewrite minus_IZR; lra).
  assert (Hz : (k1 - k2 = 0)%Z).
  { destruct (Z_lt_le_dec (k1 - k2) 1) as [Hlt | Hge].
    - destruct (Z_lt_le_dec (-1) (k1 - k2)) as [Hgt | Hle]; [lia |].
      exfalso. apply IZR_le in Hle.
      assert (IZR (k1 - k2) * TWO_PI <= -1 * TWO_PI)
        by (apply Rmult_le_compat_r; lra).
      lra.
    - exfalso. apply IZR_le in Hge.
      assert (1 * TWO_PI <= IZR (k1 - k2) * TWO_PI)
        by (apply Rmult_le_compat_r; lra).
      lra. }
  rewrite Hz in Hk. lra.
Qed.

Lemma reduced_shift (a r : R) (k : Z) :
  reduced a r -> reduced (a + IZR k * TWO_PI) r.
Proof.
  intros [Hr [k' E]]. split; [exact Hr |].
  exists (k' - k)%Z. rewrite minus_IZR. lra.
Qed.

Lemma whileAbove_exits (fuel : nat) : forall a : R,
  a < TWO_PI * INR (S fuel) ->
  exists k : nat,
    whileAbove fuel a = Some (a - INR k * TWO_PI) /\
    a - INR k * TWO_PI < TWO_PI /\
    (TWO_PI <= a -> 0 <= a - INR k * TWO_PI) /\
    (a < TWO_PI -> k = O).
Proof.
  pose proof TWO_PI_pos as Hp.
  induction fuel as [| fuel IH]; intros a Ha.
  - exists O. simpl in *. destruct (Rge_dec a TWO_PI) as [Hge | Hlt].
    + exfalso. lra.
    + repeat split; try lra. f_equal. lra.
  - rewrite S_INR in Ha.
    cbn [whileAbove]. destruct (Rge_dec a TWO_PI) as [Hge | Hlt].
    + destruct (IH (a - TWO_PI)) as (k & Hk & Hlt & Hpos & Hz); [lra |].
      exists (S k). rewrite S_INR.
      replace (a - (INR k + 1) * TWO_PI) with (a - TWO_PI - INR k * TWO_PI) by lra.
      repeat split; try assumption.
      * intros _. destruct (Rle_dec TWO_PI (a - TWO_PI)) as [Hb | Hb].
        -- apply Hpos, Hb.
        -- rewrite (Hz ltac:(lra)). simpl. lra.
      * intros Hc. exfalso. lra.
    + exists O. simpl. repeat split; try lra. f_equal. lra.
Qed.

Lemma whileBelow_exits (fuel : nat) : forall a : R,
  - (TWO_PI * INR fuel) <= a ->
  exists k : nat,
    whileBelow fuel a = Some (a + INR k * TWO_PI) /\
    0 <= a + INR k * TWO_PI /\
    (a < 0 -> a + INR k * TWO_PI < TWO_PI) /\
    (0 <= a -> k = O).
Proof.
  pose proof TWO_PI_pos as Hp.
  induction fuel as [| fuel IH]; intros a Ha.
  - exists O. simpl in *. destruct (Rlt_dec a 0) as [Hlt | Hge].
    + exfalso. lra.
    + repeat split; try lra. f_equal. lra.
  - rewrite S_INR in Ha.
    cbn [whileBelow]. destruct (Rlt_dec a 0) as [Hlt | Hge].
    + destruct (IH (a + TWO_PI)) as (k & Hk & Hpos & Hlt' & Hz); [lra |].
      exists (S k). rewrite S_INR.
      replace (a + (INR k + 1) * TWO_PI) with (a + TWO_PI + INR k * TWO_PI) by lra.
      repeat split; try assumption.
      * intros _. destruct (Rlt_dec (a + TWO_PI) 0) as [Hb | Hb].
        -- apply Hlt', Hb.
        -- rewrite (Hz ltac:(lra)). simpl. lra.
      * intros Hc. exfalso. lra.
    + exists O. simpl. repeat split; try lra. f_equal. lra.
Qed.

Lemma rounds_bounds (a : R) :
  a < TWO_PI * INR (rounds a) /\ - (TWO_PI * INR (rounds a)) <= a.
Proof.
  pose proof TWO_PI_pos as Hp.
  unfold rounds. rewrite S_INR, INR_IZR_INZ, Z2Nat.id by apply Z.abs_nonneg.
  destruct (archimed (a / TWO_PI)) as [Hup Hlow].
  set (u := up (a / TWO_PI)) in *.
  assert (Hq : a = a / TWO_PI * TWO_PI) by (field; lra).
  assert (Habs1 : IZR u <= IZR (Z.abs u)) by (apply IZR_le; lia).
  assert (Habs2 : - IZR (Z.abs u) <= IZR u)
    by (rewrite <- opp_IZR; apply IZR_le; lia).
  split.
  - assert (a / TWO_PI * TWO_PI < (IZR (Z.abs u) + 1) * TWO_PI)
      by (apply Rmult_lt_compat_r; lra).
    lra.
  - assert ((- IZR (Z.abs u) - 1) * TWO_PI <= a / TWO_PI * TWO_PI)
      by (apply Rmult_le_compat_r; lra).
    lra.
Qed.

(** With enough rounds both loops exit, on the reduced angle. *)
Lemma simplifyAngle_fuel_reduced (fuel : nat) (a : R) :
  (rounds a <= fuel)%nat ->
  exists r, simplifyAngle_fuel fuel a = Some r /\ reduced a r.
Proof.
  intros Hf. pose proof TWO_PI_pos as Hp.
  destruct (rounds_bounds a) as [Hup Hlow].
  assert (HR : INR (rounds a) <= INR fuel) by (apply le_INR, Hf).
  assert (Hm : TWO_PI * INR (rounds a) <= TWO_PI * INR fuel)
    by (apply Rmult_le_compat_l; lra).
  destruct (whileAbove_exits fuel a) as (k & Hk & Hlt & Hpos & Hz).
  { rewrite S_INR. lra. }
  unfold simplifyAngle_fuel. rewrite Hk.
  destruct (whileBelow_exits fuel (a - INR k * TWO_PI)) as (k' & Hk' & Hpos' & Hlt' & Hz').
  { destruct (Rle_dec TWO_PI a) as [Hb | Hb].
    - specialize (Hpos Hb). assert (0 <= TWO_PI * INR fuel)
        by (apply Rmult_le_pos; [lra | apply pos_INR]). lra.
    - rewrite (Hz ltac:(lra)). simpl. lra. }
  eexists. split; [exact Hk' |].
  split.
  - split; [exact Hpos' |].
    destruct (Rlt_dec (a - INR k * TWO_PI) 0) as [Hb | Hb].
    + apply Hlt', Hb.
    + rewrite (Hz' ltac:(lra)). simpl. lra.
  - exists (Z.of_nat k' - Z.of_nat k)%Z.
    rewrite minus_IZR, <- !INR_IZR_INZ. lra.
Qed.


Lemma simplifyAngle_reduced (a : R) : reduced a (simplifyAngle a).
Proof.
  destruct (simplifyAngle_fuel_reduced (rounds a) a (le_n _)) as (r & Hr & Hred).
  unfold simplifyAngle. now rewrite Hr.
Qed.

Lemma simplifyAngle_range (a : R) : 0 <= simplifyAngle a < TWO_PI.
Proof. apply simplifyAngle_reduced. Qed.

Lemma simplifyAngle_eq (a r : R) : reduced a r -> simplifyAngle a = r.
Proof. intros H. eapply reduced_unique; [apply simplifyAngle_reduced | exact H]. Qed.

Lemma simplifyAngle_id (a : R) : 0 <= a < TWO_PI -> simplifyAngle a = a.
Proof.
  intros H. apply simplifyAngle_eq. split; [exact H |]. exists 0%Z. lra.
Qed.

(** ** [relativeAngleDiff] and [constrainAngle] *)

Lemma Rabs_le_bounds (a b : R) : Rabs a <= b -> - b <= a <= b.
Proof.
  intros H. pose proof (Rle_abs a). pose proof (Rle_abs (- a)) as H'.
  rewrite Rabs_Ropp in H'. lra.
Qed.

Lemma IZR_cases (m : Z) : IZR m <= -1 \/ m = 0%Z \/ 1 <= IZR m.
Proof.
  destruct (Z_lt_le_dec m 0) as [Hlt | Hge].
  - left. apply (IZR_le m (-1)). lia.
  - destruct (Z_lt_le_dec 0 m) as [Hgt | Hle].
    + right. right. apply (IZR_le 1 m). lia.
    + right. left. lia.
Qed.

Lemma relativeAngleDiff_range (angle anchor : R) :
  - PI < relativeAngleDiff angle anchor <= PI.
Proof.
  unfold relativeAngleDiff.
  pose proof (simplifyAngle_range (angle + PI - anchor)) as H.
  unfold TWO_PI in H. lra.
Qed.

(** The program's difference is [anchor - angle] up to whole turns. *)
Lemma relativeAngleDiff_offset (angle anchor : R) :
  angularOffset angle anchor (- relativeAngleDiff angle anchor).
Proof.
  pose proof (relativeAngleDiff_range angle anchor) as Hr.
  split; [lra |].
  unfold relativeAngleDiff in *.
  destruct (simplifyAngle_reduced (angle + PI - anchor)) as [_ [k Hk]].
  exists (- k)%Z. rewrite opp_IZR. lra.
Qed.




(** The three branches of [constrainAngle]. *)
Lemma constrainAngle_inside (angle anchor constraint : R) :
  Rabs (relativeAngleDiff angle anchor) <= constraint ->
  constrainAngle angle anchor constraint = simplifyAngle angle.
Proof.
  intros H. unfold constrainAngle.
  destruct (Rle_dec _ _) as [_ | Hn]; [reflexivity | contradiction].
Qed.

Lemma constrainAngle_below (angle anchor constraint : R) :
  constraint < Rabs (relativeAngleDiff angle anchor) ->
  constraint < relativeAngleDiff angle anchor ->
  constrainAngle angle anchor constraint = simplifyAngle (anchor - constraint).
Proof.
  intros H1 H2. unfold constrainAngle.
  destruct (Rle_dec _ _) as [Hc | _]; [exfalso; lra |].
  destruct (Rgt_dec _ _) as [_ | Hn]; [reflexivity | exfalso; apply Hn; exact H2].
Qed.

Lemma constrainAngle_above (angle anchor constraint : R) :
  constraint < Rabs (relativeAngleDiff angle anchor) ->
  relativeAngleDiff angle anchor <= constraint ->
  constrainAngle angle anchor constraint = simplifyAngle (anchor + constraint).
Proof.
  intros H1 H2. unfold constrainAngle.
  destruct (Rle_dec _ _) as [Hc | _]; [exfalso; lra |].
  destruct (Rgt_dec _ _) as [Hc | _]; [exfalso; unfold Rgt in Hc; lra | reflexivity].
Qed.

Lemma constrainAngle_range (angle anchor constraint : R) :
  0 <= constrainAngle angle anchor constraint < TWO_PI.
Proof.
  unfold constrainAngle.
  destruct (Rle_dec _ _); [| destruct (Rgt_dec _ _)]; apply simplifyAngle_range.
Qed.

(** The result is always within [constraint] of the anchor, up to whole
    turns. *)
Lemma constrainAngle_within (angle anchor constraint : R) :
  0 <= constraint ->
  exists d, Rabs d <= constraint /\
            reduced (anchor + d) (constrainAngle angle anchor constraint).
Proof.
  intros Hc.
  destruct (Rle_dec (Rabs (relativeAngleDiff angle anchor)) constraint) as [Hin | Hout].
  - rewrite constrainAngle_inside by exact Hin.
    exists (- relativeAngleDiff angle anchor). split; [now rewrite Rabs_Ropp |].
    destruct (relativeAngleDiff_offset angle anchor) as [_ [k Hk]].
    destruct (simplifyAngle_reduced angle) as [Hr [k' Hk']].
    split; [exact Hr |]. exists (k + k')%Z. rewrite plus_IZR. lra.
  - apply Rnot_le_lt in Hout.
    destruct (Rlt_dec constraint (relativeAngleDiff angle anchor)) as [Hb | Ha].
    + rewrite constrainAngle_below by assumption.
      exists (- constraint). split; [rewrite Rabs_Ropp, Rabs_pos_eq; lra |].
      apply simplifyAngle_reduced.
    + rewrite constrainAngle_above by lra.
      exists constraint. split; [rewrite Rabs_pos_eq; lra |].
      apply simplifyAngle_reduced.
Qed.






(** In exact arithmetic every value returned by [constrainAngle], hence
    every angle that [applyConstraint] stores in a joint, lies in
    [[0, TWO_PI)]; for a window centred on the zero angle with half-width
    [range] at most [PI] (such as [[- PI / 4, PI / 4]]), the stored angle
    lies in [[0, range]] or in [[TWO_PI - range, TWO_PI)], and is never
    negative. *)
Lemma solvedAngle_exact :
  (forall angle anchor constraint,
     0 <= constrainAngle angle anchor constraint < TWO_PI) /\
  (forall anchor normal distance angleRange angleOffset p,
     0 <= LimbPoint.angle
            (LimbPoint.applyConstraint anchor normal distance angleRange
               angleOffset p) < TWO_PI) /\
  (forall anchor distance range p,
     0 <= range <= PI ->
     let a := LimbPoint.angle
                (LimbPoint.applyConstraint anchor 0 distance range 0 p) in
     0 <= a <= range \/ TWO_PI - range <= a < TWO_PI).
Proof.
  split; [| split].
  - apply constrainAngle_range.
  - intros. apply constrainAngle_range.
  - intros anchor distance range p Hr a. subst a.
    cbn [LimbPoint.applyConstraint LimbPoint.angle].
    set (cur := Vector2.angle _).
    pose proof (constrainAngle_range cur (0 + 0) range) as Hrange.
    destruct (constrainAngle_within cur (0 + 0) range ltac:(lra))
      as (d & Hd & [_ [k Hk]]).
    set (r := constrainAngle cur (0 + 0) range) in *.
    apply Rabs_le_bounds in Hd. unfold TWO_PI in *.
    pose proof PI_RGT_0 as Hpi.
    destruct (IZR_cases k) as [Hm | [Hm | Hm]].
    + exfalso. assert (IZR k * (PI * 2) <= -1 * (PI * 2))
        by (apply Rmult_le_compat_r; lra). lra.
    + rewrite Hm in Hk. destruct (Rle_dec 0 d); [left; lra |].
      exfalso. lra.
    + destruct (Z_lt_le_dec k 2) as [Hk1 | Hk2].
      * assert (k = 1%Z) by (apply le_IZR in Hm; lia). subst k.
        right. lra.
      * exfalso. apply IZR_le in Hk2.
        assert (2 * (PI * 2) <= IZR k * (PI * 2))
          by (apply Rmult_le_compat_r; lra). lra.
Qed.

(** ** Vectors *)

Lemma Vector2_eta (v : Vector2.t) : Vector2.mk (Vector2.x v) (Vector2.y v) = v.
Proof. now destruct v. Qed.

Lemma Vector2_length_nonneg (v : Vector2.t) : 0 <= Vector2.length v.
Proof. apply sqrt_pos. Qed.

Lemma Vector2_lengthSq_nonneg (v : Vector2.t) :
  0 <= Vector2.x v * Vector2.x v + Vector2.y v * Vector2.y v.
Proof. nra. Qed.


Lemma Vector2_length_axis_x (a : R) : Vector2.length (Vector2.mk a 0) = Rabs a.
Proof.
  unfold Vector2.length. cbn [Vector2.x Vector2.y].
  replace (a * a + 0 * 0) with (Rsqr a) by (unfold Rsqr; lra).
  apply sqrt_Rsqr_abs.
Qed.

Lemma Vector2_length_axis_y (b : R) : Vector2.length (Vector2.mk 0 b) = Rabs b.
Proof.
  unfold Vector2.length. cbn [Vector2.x Vector2.y].
  replace (0 * 0 + b * b) with (Rsqr b) by (unfold Rsqr; lra).
  apply sqrt_Rsqr_abs.
Qed.

(** [normalize] of the zero vector is the zero vector: the guard [len > 0]
    fails. *)
Lemma normalize_zero : Vector2.normalize (Vector2.mk 0 0) = Vector2.mk 0 0.
Proof.
  unfold Vector2.normalize. cbn [Vector2.x Vector2.y].
  destruct (Rgt_dec (0 * 0 + 0 * 0) 0) as [H | _]; [exfalso; lra | reflexivity].
Qed.

Lemma setLength_zero (len : R) :
  Vector2.setLength (Vector2.mk 0 0) len = Vector2.mk 0 0.
Proof.
  unfold Vector2.setLength. rewrite normalize_zero.
  unfold Vector2.scale. cbn [Vector2.x Vector2.y]. f_equal; lra.
Qed.

(** Any vector set to length zero is the zero vector. *)
Lemma setLength_to_zero (v : Vector2.t) :
  Vector2.setLength v 0 = Vector2.mk 0 0.
Proof. unfold Vector2.setLength, Vector2.scale. f_equal; lra. Qed.

(** A vector that is not zero is brought to unit length by [normalize]. *)
Lemma normalize_length (v : Vector2.t) :
  v <> Vector2.mk 0 0 -> Vector2.length (Vector2.normalize v) = 1.
Proof.
  intros Hv. destruct v as [a b].
  assert (Hpos : 0 < a * a + b * b).
  { destruct (Req_dec a 0) as [-> | Ha]; [| nra].
    destruct (Req_dec b 0) as [-> | Hb]; [exfalso; now apply Hv | nra]. }
  unfold Vector2.normalize, Vector2.length. cbn [Vector2.x Vector2.y].
  destruct (Rgt_dec (a * a + b * b) 0) as [_ | Hn]; [| exfalso; apply Hn; exact Hpos].
  cbn [Vector2.x Vector2.y].
  pose proof (sqrt_lt_R0 _ Hpos) as Hs.
  pose proof (sqrt_sqrt (a * a + b * b) ltac:(lra)) as Hss.
  set (s := sqrt (a * a + b * b)) in *.
  replace (a * (1 / s) * (a * (1 / s)) + b * (1 / s) * (b * (1 / s)))
    with ((a * a + b * b) / (s * s)) by (field; lra).
  rewrite Hss. replace ((a * a + b * b) / (a * a + b * b)) with 1 by (field; lra).
  apply sqrt_1.
Qed.

Lemma scale_length (v : Vector2.t) (k : R) :
  Vector2.length (Vector2.scale v k) = Vector2.length v * Rabs k.
Proof.
  unfold Vector2.length, Vector2.scale. cbn [Vector2.x Vector2.y].
  replace (Vector2.x v * k * (Vector2.x v * k) + Vector2.y v * k * (Vector2.y v * k))
    with ((Vector2.x v * Vector2.x v + Vector2.y v * Vector2.y v) * Rsqr k)
    by (unfold Rsqr; ring).
  rewrite sqrt_mult_alt by apply Vector2_lengthSq_nonneg.
  now rewrite sqrt_Rsqr_abs.
Qed.

(** [setLength] gives a vector that is not zero the length asked for (its
    absolute value). *)
Lemma setLength_length (v : Vector2.t) (len : R) :
  v <> Vector2.mk 0 0 ->
  Vector2.length (Vector2.setLength v len) = Rabs len.
Proof.
  intros Hv. unfold Vector2.setLength.
  rewrite scale_length, normalize_length by exact Hv. lra.
Qed.

(** The direction [(cos a, sin a)] is already of unit length. *)
Lemma setLength_unit (a len : R) :
  Vector2.setLength (Vector2.mk (cos a) (sin a)) len =
  Vector2.mk (cos a * len) (sin a * len).
Proof.
  unfold Vector2.setLength, Vector2.normalize, Vector2.scale.
  cbn [Vector2.x Vector2.y].
  assert (H1 : cos a * cos a + sin a * sin a = 1).
  { pose proof (sin2_cos2 a) as H. unfold Rsqr in H. lra. }
  rewrite H1, sqrt_1.
  destruct (Rgt_dec 1 0) as [_ | Hn]; [| exfalso; lra].
  cbn [Vector2.x Vector2.y]. f_equal; field.
Qed.

Lemma unit_scaled_length (a len : R) :
  Vector2.length (Vector2.mk (cos a * len) (sin a * len)) = Rabs len.
Proof.
  unfold Vector2.length. cbn [Vector2.x Vector2.y].
  pose proof (sin2_cos2 a) as H. unfold Rsqr in H.
  replace (cos a * len * (cos a * len) + sin a * len * (sin a * len))
    with (Rsqr len) by (unfold Rsqr; nra).
  apply sqrt_Rsqr_abs.
Qed.

Lemma Vector2_subtract_self (v : Vector2.t) : Vector2.subtract v v = Vector2.mk 0 0.
Proof. unfold Vector2.subtract. f_equal; lra. Qed.

Lemma Vector2_rotate_zero (delta : R) :
  Vector2.rotate (Vector2.mk 0 0) delta = Vector2.mk 0 0.
Proof. unfold Vector2.rotate. cbn [Vector2.x Vector2.y]. f_equal; lra. Qed.

Lemma Vector2_length_zero_vector : Vector2.length (Vector2.mk 0 0) = 0.
Proof.
  unfold Vector2.length. cbn [Vector2.x Vector2.y].
  replace (0 * 0 + 0 * 0) with 0 by lra. apply sqrt_0.
Qed.

(** ** [Clamp] *)

Lemma Clamp_range (v hi : R) : 0 <= hi -> 0 <= Clamp v 0 hi <= hi.
Proof.
  intros H. unfold Clamp, Rmax, Rmin.
  repeat destruct (Rle_dec _ _); lra.
Qed.

Lemma Clamp_id (v hi : R) : 0 <= v <= hi -> Clamp v 0 hi = v.
Proof.
  intros H. unfold Clamp, Rmax, Rmin.
  repeat destruct (Rle_dec _ _); lra.
Qed.

Lemma Clamp_low (v hi : R) : v <= 0 -> 0 <= hi -> Clamp v 0 hi = 0.
Proof.
  intros H H'. unfold Clamp, Rmax, Rmin.
  repeat destruct (Rle_dec _ _); lra.
Qed.

(** ** [LimbPoint.applyConstraint] and [Limb.resolve] *)

(** Where the constraint puts the joint: [distance] away from the anchor,
    against the direction of the solved angle. *)
Lemma applyConstraint_pos (anchor : Vector2.t) (normal distance angleRange
    angleOffset : R) (p : LimbPoint.t) :
  let p' := LimbPoint.applyConstraint anchor normal distance angleRange angleOffset p in
  LimbPoint.pos p' =
  Vector2.subtract anchor
    (Vector2.mk (cos (LimbPoint.angle p') * distance)
                (sin (LimbPoint.angle p') * distance)).
Proof.
  cbn [LimbPoint.applyConstraint LimbPoint.pos LimbPoint.angle].
  now rewrite setLength_unit.
Qed.

Lemma applyConstraint_distance (anchor : Vector2.t) (normal distance
    angleRange angleOffset : R) (p : LimbPoint.t) :
  Vector2.length
    (Vector2.subtract
       (LimbPoint.pos
          (LimbPoint.applyConstraint anchor normal distance angleRange angleOffset p))
       anchor) = Rabs distance.
Proof.
  rewrite applyConstraint_pos.
  set (a := LimbPoint.angle _).
  rewrite <- (unit_scaled_length a distance).
  unfold Vector2.length, Vector2.subtract. cbn [Vector2.x Vector2.y].
  f_equal. ring.
Qed.

Lemma LimbPoint_keepInBounds_id (scene : Scene) (p : LimbPoint.t) :
  inBounds scene (LimbPoint.pos p) ->
  LimbPoint.keepInBounds (width scene) (height scene) p = p.
Proof.
  intros [Hx Hy]. destruct p as [[px py] pp a].
  unfold LimbPoint.keepInBounds. cbn [LimbPoint.pos LimbPoint.ppos LimbPoint.angle
    Vector2.x Vector2.y] in *.
  now rewrite !Clamp_id.
Qed.

(** C1, as amended.  For a segment length that is not negative, the
    constraint of [Limb.resolve] puts each joint exactly [distance] from its
    anchor (the root anchor for the elbow, the final elbow for the foot);
    the joint is then kept in bounds, so the final distance is [distance]
    whenever the constrained position lies inside the world. *)
Theorem resolve_joint_distance (scene : Scene) (anchor : Vector2.t)
    (normal : R) (l : Limb.t) :
  0 <= Limb.distance l ->
  let l' := Limb.resolve scene anchor normal l in
  let e := Limb.elbowConstrained l anchor normal in
  let f := Limb.footConstrained l (Limb.elbow l') in
  Limb.elbow l' = LimbPoint.keepInBounds (width scene) (height scene) e /\
  Limb.foot l' = LimbPoint.keepInBounds (width scene) (height scene) f /\
  Vector2.length (Vector2.subtract (LimbPoint.pos e) anchor) = Limb.distance l /\
  Vector2.length
    (Vector2.subtract (LimbPoint.pos f) (LimbPoint.pos (Limb.elbow l')))
    = Limb.distance l /\
  (inBounds scene (LimbPoint.pos e) ->
   Vector2.length
     (Vector2.subtract (LimbPoint.pos (Limb.elbow l')) anchor)
     = Limb.distance l) /\
  (inBounds scene (LimbPoint.pos f) ->
   Vector2.length
     (Vector2.subtract (LimbPoint.pos (Limb.foot l'))
        (LimbPoint.pos (Limb.elbow l')))
     = Limb.distance l).
Proof.
  intros Hd l' e f.
  assert (He : Vector2.length (Vector2.subtract (LimbPoint.pos e) anchor)
               = Limb.distance l).
  { subst e. unfold Limb.elbowConstrained.
    rewrite applyConstraint_distance. now apply Rabs_pos_eq. }
  assert (Hf : Vector2.length
                 (Vector2.subtract (LimbPoint.pos f) (LimbPoint.pos (Limb.elbow l')))
               = Limb.distance l).
  { subst f. unfold Limb.footConstrained.
    rewrite applyConstraint_distance. now apply Rabs_pos_eq. }
  repeat split; try reflexivity; try assumption.
  - intros Hin. subst l'. cbn [Limb.resolve Limb.elbow].
    fold e. now rewrite LimbPoint_keepInBounds_id.
  - intros Hin. subst l'. cbn [Limb.resolve Limb.elbow Limb.foot] in *.
    fold e in f, Hf, Hin |- *. fold f.
    now rewrite (LimbPoint_keepInBounds_id scene f).
Qed.

Lemma Vector2_angle_down (v : Vector2.t) :
  Vector2.x v = 0 -> Vector2.y v < 0 -> Vector2.angle v = 3 * PI / 2.
Proof.
  intros Hx Hy. unfold Vector2.angle, Math_atan2. rewrite Hx.
  pose proof PI_RGT_0 as Hpi.
  destruct (Rlt_dec 0 0) as [H | _]; [exfalso; lra |].
  destruct (Rlt_dec 0 (Vector2.y v)) as [H | _]; [exfalso; lra |].
  destruct (Rlt_dec (Vector2.y v) 0) as [_ | H]; [| exfalso; lra].
  destruct (Rlt_dec (- (PI / 2)) 0) as [_ | H]; [| exfalso; lra].
  lra.
Qed.

Lemma constrainAngle_scenario :
  constrainAngle (3 * PI / 2) (0 + 0) (PI / 4) = 7 * PI / 4.
Proof.
  pose proof PI_RGT_0 as Hpi.
  assert (Hrel : relativeAngleDiff (3 * PI / 2) (0 + 0) = PI / 2).
  { unfold relativeAngleDiff.
    rewrite (simplifyAngle_eq _ (PI / 2)); [lra |].
    split; [unfold TWO_PI; lra |]. exists (-1)%Z. unfold TWO_PI. lra. }
  rewrite constrainAngle_below.
  - apply simplifyAngle_eq. split; [unfold TWO_PI; lra |].
    exists 1%Z. unfold TWO_PI. lra.
  - rewrite Hrel, Rabs_pos_eq; lra.
  - rewrite Hrel. lra.
Qed.

Lemma cos_sin_7PI4 : cos (7 * PI / 4) = 1 / sqrt 2 /\ sin (7 * PI / 4) = - (1 / sqrt 2).
Proof.
  replace (7 * PI / 4) with (- (PI / 4) + 2 * INR 1 * PI) by (simpl; lra).
  rewrite cos_period, sin_period, cos_neg, sin_neg, cos_PI4, sin_PI4. split; reflexivity.
Qed.

Lemma resolve_scenario_elbow :
  LimbPoint.pos (Limb.elbow (Limb.resolve scenarioScene (Vector2.mk 0 0) 0 scenarioLimb))
  = Vector2.mk 0 (56 / sqrt 2).
Proof.
  unfold Limb.resolve. cbn [Limb.elbow].
  unfold LimbPoint.keepInBounds. cbn [LimbPoint.pos].
  unfold Limb.elbowConstrained.
  rewrite applyConstraint_pos.
  cbn [LimbPoint.applyConstraint LimbPoint.angle].
  rewrite Vector2_angle_down.
  2:{ cbn. lra. }
  2:{ cbn. lra. }
  cbn [scenarioLimb Limb.elbowOffset Limb.elbowRange Limb.distance].
  rewrite constrainAngle_scenario.
  destruct cos_sin_7PI4 as [-> ->].
  cbn [Vector2.subtract Vector2.x Vector2.y scenarioScene width height].
  assert (Hs : 1 < sqrt 2 < 2).
  { split.
    - rewrite <- sqrt_1 at 1. apply sqrt_lt_1; lra.
    - replace 2 with (sqrt (2 * 2)) at 2 by (apply sqrt_square; lra).
      apply sqrt_lt_1; lra. }
  assert (Hq : 0 < 1 / sqrt 2 < 1).
  { split; [apply Rdiv_lt_0_compat; lra |].
    apply (Rmult_lt_reg_r (sqrt 2)); [lra |].
    replace (1 / sqrt 2 * sqrt 2) with 1 by (field; lra). lra. }
  f_equal.
  - apply Clamp_low; lra.
  - rewrite Clamp_id.
    + field. lra.
    + nra.
Qed.

(** Away from the walls the constrained elbow is inside the world. *)
Lemma elbowConstrained_inBounds :
  inBounds scenarioScene
    (LimbPoint.pos (Limb.elbowConstrained scenarioLimb (Vector2.mk 1000 1000) 0)).
Proof.
  unfold Limb.elbowConstrained. rewrite applyConstraint_pos.
  set (a := LimbPoint.angle _).
  pose proof (COS_bound a) as [Hc1 Hc2]. pose proof (SIN_bound a) as [Hs1 Hs2].
  unfold inBounds, Vector2.subtract.
  cbn [Vector2.x Vector2.y scenarioScene width height scenarioLimb Limb.distance].
  lra.
Qed.

Lemma resolve_joint_distance_witness :
  0 <= Limb.distance scenarioLimb /\
  Vector2.length
    (Vector2.subtract
       (LimbPoint.pos
          (Limb.elbow
             (Limb.resolve scenarioScene (Vector2.mk 1000 1000) 0 scenarioLimb)))
       (Vector2.mk 1000 1000)) = Limb.distance scenarioLimb.
Proof.
  assert (H : 0 <= Limb.distance scenarioLimb) by (cbn; lra).
  split; [exact H |].
  exact (proj1 (proj2 (proj2 (proj2 (proj2
           (resolve_joint_distance scenarioScene (Vector2.mk 1000 1000) 0
              scenarioLimb H)))))
           elbowConstrained_inBounds).
Defined.

(** C1 fails as stated: in the scenario of the specification (a limb of
    segment length 56 built at the origin, resolved against the anchor
    [(0, 0)] with normal angle 0 in a world of 2000 by 2000), the constraint
    puts the elbow at a negative abscissa, the bounds bring it back to 0, and
    the elbow ends [56 / sqrt 2] (about 39.6) from its anchor. *)
Lemma resolve_joint_distance_counterexample :
  Limb.constructor (Vector2.mk 0 0) 56 (PI / 4) 0 (PI / 5) (- PI / 4)
    = Normal scenarioLimb /\
  Vector2.length
    (Vector2.subtract
       (LimbPoint.pos
          (Limb.elbow (Limb.resolve scenarioScene (Vector2.mk 0 0) 0 scenarioLimb)))
       (Vector2.mk 0 0)) < 56 - 16.
Proof.
  split; [reflexivity |].
  rewrite resolve_scenario_elbow.
  unfold Vector2.subtract. cbn [Vector2.x Vector2.y].
  replace (0 - 0) with 0 by lra.
  rewrite Vector2_length_axis_y.
  assert (Hs : 1.4 < sqrt 2).
  { replace 1.4 with (sqrt (1.4 * 1.4)) by (apply sqrt_square; lra).
    apply sqrt_lt_1; lra. }
  assert (Hq : 56 / sqrt 2 < 40).
  { apply (Rmult_lt_reg_r (sqrt 2)); [lra |].
    replace (56 / sqrt 2 * sqrt 2) with 56 by (field; lra). lra. }
  assert (0 < 56 / sqrt 2) by (apply Rdiv_lt_0_compat; lra).
  rewrite Rabs_pos_eq; lra.
Qed.

Lemma Vector2_zero_dec (v : Vector2.t) :
  {v = Vector2.mk 0 0} + {v <> Vector2.mk 0 0}.
Proof.
  destruct v as [a b].
  destruct (Req_dec_T a 0) as [-> | Ha]; [| right; congruence].
  destruct (Req_dec_T b 0) as [-> | Hb]; [left; reflexivity | right; congruence].
Qed.

(** ** [Blob.update]: the last thing done to every point *)

Lemma relaxation_S (k : nat) (scene : Scene) (b : Blob.t) :
  forall pts,
    Blob.relaxation (S k) scene b pts =
    Blob.relax scene b (Blob.relaxation k scene b pts).
Proof.
  induction k as [| k IH]; intros pts; [reflexivity |].
  change (Blob.relaxation (S (S k)) scene b pts)
    with (Blob.relaxation (S k) scene b (Blob.relax scene b pts)).
  rewrite IH. reflexivity.
Qed.

(** After at least one round, every point is the image by [Blob.collide] of
    some point: bounds and pointer are what was applied to it last. *)
Lemma update_last_collide (scene : Scene) (iterations : nat) (b : Blob.t)
    (p : BlobPoint.t) :
  (1 <= iterations)%nat ->
  In p (Blob.points (Blob.update scene iterations b)) ->
  exists q, p = Blob.collide scene q.
Proof.
  intros Hit Hin. destruct iterations as [| k]; [lia |].
  unfold Blob.update in Hin. cbn [Blob.points] in Hin.
  rewrite relaxation_S in Hin. unfold Blob.relax in Hin.
  apply in_map_iff in Hin. destruct Hin as (q & Hq & _).
  exists q. now symmetry.
Qed.

Lemma BlobPoint_keepInBounds_inBounds (scene : Scene) (q : BlobPoint.t) :
  0 <= width scene -> 0 <= height scene ->
  inBounds scene
    (BlobPoint.pos (BlobPoint.keepInBounds (width scene) (height scene) q)).
Proof.
  intros Hw Hh. unfold inBounds, BlobPoint.keepInBounds.
  cbn [BlobPoint.pos Vector2.x Vector2.y].
  split; apply Clamp_range; assumption.
Qed.

Lemma pointerDistance_length (p : BlobPoint.t) (pw : Vector2.t) :
  pointerDistance p pw = Vector2.length (Vector2.subtract (BlobPoint.pos p) pw).
Proof. reflexivity. Qed.

(** What [collideWithPointer] does to a point, by cases: far enough, it is
    left alone; on the pointer, it stays there; otherwise it is moved to
    distance 100 exactly. *)
Lemma collideWithPointer_cases (pw : Vector2.t) (q : BlobPoint.t) :
  let p := BlobPoint.collideWithPointer (Some pw) q in
  (100 <= pointerDistance q pw /\ p = q) \/
  (BlobPoint.pos q = pw /\ BlobPoint.pos p = pw) \/
  (pointerDistance q pw < 100 /\ BlobPoint.pos q <> pw /\ pointerDistance p pw = 100).
Proof.
  intros p. subst p. unfold BlobPoint.collideWithPointer.
  fold (pointerDistance q pw).
  destruct (Rlt_dec (pointerDistance q pw) 100) as [Hlt | Hge].
  - right.
    destruct (Vector2_zero_dec (Vector2.subtract (BlobPoint.pos q) pw))
      as [Hz | Hnz].
    + left. cbn [BlobPoint.pos]. rewrite Hz, setLength_zero.
      assert (E : BlobPoint.pos q = pw).
      { destruct (BlobPoint.pos q) as [a b0], pw as [c d].
        unfold Vector2.subtract in Hz. cbn [Vector2.x Vector2.y] in Hz.
        injection Hz as H1 H2. f_equal; lra. }
      split; [exact E |].
      destruct pw as [c d]. unfold Vector2.add. cbn [Vector2.x Vector2.y].
      f_equal; lra.
    + right. split; [exact Hlt |]. split.
      * intros E. apply Hnz. rewrite E. unfold Vector2.subtract. f_equal; lra.
      * rewrite pointerDistance_length. cbn [BlobPoint.pos].
        set (d := Vector2.setLength _ 100).
        replace (Vector2.subtract (Vector2.add pw d) pw) with d.
        -- subst d. rewrite setLength_length by exact Hnz.
           apply Rabs_pos_eq. lra.
        -- destruct d as [dx dy]. unfold Vector2.subtract, Vector2.add.
           cbn [Vector2.x Vector2.y]. f_equal; lra.
  - left. split; [lra | reflexivity].
Qed.

(** The three regimes of the pointer push. *)
Lemma collideWithPointer_regimes (pw : Vector2.t) (q : BlobPoint.t) :
  let p := BlobPoint.collideWithPointer (Some pw) q in
  (100 <= pointerDistance q pw -> p = q) /\
  (BlobPoint.pos q = pw -> p = q) /\
  (pointerDistance q pw < 100 -> BlobPoint.pos q <> pw ->
   pointerDistance p pw = 100 /\
   BlobPoint.pos p =
     Vector2.add pw
       (Vector2.scale (Vector2.subtract (BlobPoint.pos q) pw)
          (100 / pointerDistance q pw))).
Proof.
  cbn zeta. split; [| split].
  - intros Hfar. unfold BlobPoint.collideWithPointer.
    fold (pointerDistance q pw).
    destruct (Rlt_dec (pointerDistance q pw) 100); [lra | reflexivity].
  - intros Hon. unfold BlobPoint.collideWithPointer.
    destruct (Rlt_dec _ 100); [| reflexivity].
    rewrite Hon, Vector2_subtract_self, setLength_zero.
    destruct q as [qp qpp qd qw]. cbn in Hon. subst qp. cbn. f_equal.
    destruct pw as [a b]. unfold Vector2.add. cbn. f_equal; lra.
  - intros Hlt Hne.
    destruct (collideWithPointer_cases pw q) as [[Hfar _] | [[Hon _] | (_ & _ & E)]];
      [lra | contradiction |].
    split; [exact E |].
    unfold BlobPoint.collideWithPointer. fold (pointerDistance q pw).
    destruct (Rlt_dec (pointerDistance q pw) 100) as [_ | Hn]; [| lra].
    cbn [BlobPoint.pos]. f_equal.
    rewrite pointerDistance_length.
    set (diff := Vector2.subtract (BlobPoint.pos q) pw).
    assert (Hnz : diff <> Vector2.mk 0 0).
    { intros Ez. apply Hne. unfold diff, Vector2.subtract in Ez.
      destruct (BlobPoint.pos q) as [a b], pw as [c d]. cbn in Ez.
      injection Ez as H1 H2. f_equal; lra. }
    unfold Vector2.setLength, Vector2.normalize, Vector2.scale, Vector2.length.
    destruct diff as [x y]. cbn [Vector2.x Vector2.y].
    assert (Hpos : 0 < x * x + y * y).
    { destruct (Req_dec x 0) as [-> | Hx]; [| nra].
      destruct (Req_dec y 0) as [-> | Hy]; [exfalso; now apply Hnz | nra]. }
    destruct (Rgt_dec (x * x + y * y) 0) as [_ | Hn]; [| exfalso; apply Hn; exact Hpos].
    cbn [Vector2.x Vector2.y]. pose proof (sqrt_lt_R0 _ Hpos).
    f_equal; field; lra.
Qed.

Lemma underflowRadius_pos : 0 < underflowRadius.
Proof. unfold underflowRadius. apply Rinv_0_lt_compat, pow_lt. lra. Qed.

(** C2, as amended.  In a world whose width and height are not negative,
    after [update] with at least one round every boundary point is the
    outcome of the collision step on a point that the clamp has brought
    within the bounds.  Without a repulsion point it is that clamped point.
    With one, it is that clamped point when the clamped point is 100 or more
    away from the repulsion point, or exactly on it; and it is 100 from the
    repulsion point, along the same direction, and possibly out of bounds,
    when the clamped point was nearer than 100 and at least
    [underflowRadius] away.  (Nothing is said of a clamped point nearer than
    [underflowRadius] without being on the repulsion point.) *)
Theorem update_bounds (scene : Scene) (iterations : nat) (b : Blob.t) :
  (1 <= iterations)%nat ->
  0 <= width scene -> 0 <= height scene ->
  Forall
    (fun p =>
       exists q0,
         let q := BlobPoint.keepInBounds (width scene) (height scene) q0 in
         p = Blob.collide scene q0 /\
         inBounds scene (BlobPoint.pos q) /\
         match pointerWorld scene with
         | None => p = q
         | Some pw =>
             (100 <= pointerDistance q pw \/ BlobPoint.pos q = pw -> p = q) /\
             (underflowRadius <= pointerDistance q pw < 100 ->
              pointerDistance p pw = 100 /\
              BlobPoint.pos p =
                Vector2.add pw
                  (Vector2.scale (Vector2.subtract (BlobPoint.pos q) pw)
                     (100 / pointerDistance q pw)))
         end)
    (Blob.points (Blob.update scene iterations b)).
Proof.
  intros Hit Hw Hh. apply Forall_forall. intros p Hin.
  apply list_elem_of_In in Hin.
  destruct (update_last_collide scene iterations b p Hit Hin) as [q0 ->].
  exists q0. cbn zeta. split; [reflexivity |].
  split; [now apply BlobPoint_keepInBounds_inBounds |].
  unfold Blob.collide.
  set (q := BlobPoint.keepInBounds (width scene) (height scene) q0).
  destruct (pointerWorld scene) as [pw |]; [| reflexivity].
  destruct (collideWithPointer_regimes pw q) as (Hfar & Hon & Hpush).
  split.
  - intros [H | H]; [now apply Hfar | now apply Hon].
  - intros [Hlo Hhi]. apply Hpush; [exact Hhi |].
    intros E. pose proof underflowRadius_pos as Hu.
    rewrite pointerDistance_length, E, Vector2_subtract_self,
      Vector2_length_zero_vector in Hlo. lra.
Qed.

(** C3, as amended.  When a repulsion point is supplied, after [update]
    with at least one round every boundary point is the outcome of the
    pointer push on its clamped position: a clamped point 100 or more away
    from the repulsion point is left where it is; one exactly on the
    repulsion point is left there, at distance 0; one nearer than 100 and at
    least [underflowRadius] away ends at distance 100 exactly, along the same
    direction.  (Nothing is said of a clamped point nearer than
    [underflowRadius] without being on the repulsion point.) *)
Theorem update_repulsion (scene : Scene) (iterations : nat) (b : Blob.t)
    (pw : Vector2.t) :
  (1 <= iterations)%nat ->
  pointerWorld scene = Some pw ->
  Forall
    (fun p =>
       exists q0,
         let q := BlobPoint.keepInBounds (width scene) (height scene) q0 in
         p = BlobPoint.collideWithPointer (Some pw) q /\
         (100 <= pointerDistance q pw ->
          p = q /\ 100 <= pointerDistance p pw) /\
         (BlobPoint.pos q = pw -> p = q /\ pointerDistance p pw = 0) /\
         (underflowRadius <= pointerDistance q pw < 100 ->
          pointerDistance p pw = 100 /\
          BlobPoint.pos p =
            Vector2.add pw
              (Vector2.scale (Vector2.subtract (BlobPoint.pos q) pw)
                 (100 / pointerDistance q pw))))
    (Blob.points (Blob.update scene iterations b)).
Proof.
  intros Hit Hpw. apply Forall_forall. intros p Hin.
  apply list_elem_of_In in Hin.
  destruct (update_last_collide scene iterations b p Hit Hin) as [q0 ->].
  exists q0. cbn zeta. unfold Blob.collide. rewrite Hpw.
  set (q := BlobPoint.keepInBounds (width scene) (height scene) q0).
  destruct (collideWithPointer_regimes pw q) as (Hfar & Hon & Hpush).
  split; [reflexivity |]. split; [| split].
  - intros H. rewrite (Hfar H). split; [reflexivity | exact H].
  - intros H. rewrite (Hon H). split; [reflexivity |].
    now rewrite pointerDistance_length, H, Vector2_subtract_self,
      Vector2_length_zero_vector.
  - intros [Hlo Hhi]. apply Hpush; [exact Hhi |].
    intros E. pose proof underflowRadius_pos as Hu.
    rewrite pointerDistance_length, E, Vector2_subtract_self,
      Vector2_length_zero_vector in Hlo. lra.
Qed.

(** ** The distance constraint *)

Lemma Vector2_length_ge_x (v : Vector2.t) : Rabs (Vector2.x v) <= Vector2.length v.
Proof.
  unfold Vector2.length. rewrite <- sqrt_Rsqr_abs.
  apply sqrt_le_1_alt. unfold Rsqr. nra.
Qed.

Lemma setLength_axis_x (a len : R) :
  a <> 0 ->
  Vector2.setLength (Vector2.mk a 0) len = Vector2.mk (a / Rabs a * len) 0.
Proof.
  intros Ha. unfold Vector2.setLength, Vector2.normalize, Vector2.scale.
  cbn [Vector2.x Vector2.y].
  assert (Hpos : 0 < a * a + 0 * 0) by nra.
  destruct (Rgt_dec (a * a + 0 * 0) 0) as [_ | Hn]; [| exfalso; apply Hn; exact Hpos].
  cbn [Vector2.x Vector2.y].
  pose proof (Vector2_length_axis_x a) as Hlen.
  unfold Vector2.length in Hlen. cbn [Vector2.x Vector2.y] in Hlen. rewrite Hlen.
  assert (Rabs a <> 0) by (apply Rabs_no_R0; exact Ha).
  f_equal; field; assumption.
Qed.

Lemma setLength_axis_y (b len : R) :
  b <> 0 ->
  Vector2.setLength (Vector2.mk 0 b) len = Vector2.mk 0 (b / Rabs b * len).
Proof.
  intros Hb. unfold Vector2.setLength, Vector2.normalize, Vector2.scale.
  cbn [Vector2.x Vector2.y].
  assert (Hpos : 0 < 0 * 0 + b * b) by nra.
  destruct (Rgt_dec (0 * 0 + b * b) 0) as [_ | Hn]; [| exfalso; apply Hn; exact Hpos].
  cbn [Vector2.x Vector2.y].
  pose proof (Vector2_length_axis_y b) as Hlen.
  unfold Vector2.length in Hlen. cbn [Vector2.x Vector2.y] in Hlen. rewrite Hlen.
  assert (Rabs b <> 0) by (apply Rabs_no_R0; exact Hb).
  f_equal; field; assumption.
Qed.

Lemma Vector2_rotate_quarter (a b : R) :
  Vector2.rotate (Vector2.mk a b) (- PI / 2) = Vector2.mk b (- a).
Proof.
  unfold Vector2.rotate. cbn [Vector2.x Vector2.y].
  replace (- PI / 2) with (- (PI / 2)) by lra.
  rewrite cos_neg, sin_neg, cos_PI2, sin_PI2. f_equal; lra.
Qed.

(** Nothing is done for a pair that is not stretched beyond [chordLength]. *)
Lemma distanceConstraint_slack (c : R) (pts : list BlobPoint.t) (i : nat)
    (cur next : BlobPoint.t) :
  pts !! i = Some cur ->
  pts !! ((i + 1) mod length pts)%nat = Some next ->
  Vector2.length (Vector2.subtract (BlobPoint.pos next) (BlobPoint.pos cur)) <= c ->
  Blob.distanceConstraint c pts i = pts.
Proof.
  intros Hi Hj Hle. unfold Blob.distanceConstraint. rewrite Hi, Hj.
  destruct (Rgt_dec _ c) as [Hgt | _]; [exfalso; unfold Rgt in Hgt; lra | reflexivity].
Qed.

Lemma distanceConstraint_stretched (c : R) (pts : list BlobPoint.t) (i : nat)
    (cur next : BlobPoint.t) :
  pts !! i = Some cur ->
  pts !! ((i + 1) mod length pts)%nat = Some next ->
  let diff := Vector2.subtract (BlobPoint.pos next) (BlobPoint.pos cur) in
  let mag := Vector2.length diff in
  c < mag ->
  Blob.distanceConstraint c pts i =
  let offset := Vector2.setLength diff ((mag - c) / 2) in
  alter (BlobPoint.accumulateDisplacement (Vector2.scale offset (-1)))
    ((i + 1) mod length pts)%nat
    (alter (BlobPoint.accumulateDisplacement offset) i pts).
Proof.
  intros Hi Hj diff mag Hlt. unfold Blob.distanceConstraint. rewrite Hi, Hj.
  fold diff. fold mag.
  destruct (Rgt_dec mag c) as [_ | Hn]; [reflexivity | exfalso; apply Hn; exact Hlt].
Qed.

Lemma fold_left_fixed {A B : Type} (f : A -> B -> A) (l : list B) (a : A) :
  (forall x, In x l -> f a x = a) -> fold_left f l a = a.
Proof.
  induction l as [| x l IH]; intros H; [reflexivity |].
  cbn [fold_left]. rewrite (H x) by (left; reflexivity).
  apply IH. intros y Hy. apply H. right. exact Hy.
Qed.

(** When no pair is stretched the whole distance loop changes nothing. *)
Lemma distanceConstraints_slack (c : R) (pts : list BlobPoint.t) :
  (forall i cur next,
     pts !! i = Some cur ->
     pts !! ((i + 1) mod length pts)%nat = Some next ->
     Vector2.length
       (Vector2.subtract (BlobPoint.pos next) (BlobPoint.pos cur)) <= c) ->
  Blob.distanceConstraints c pts = pts.
Proof.
  intros H. unfold Blob.distanceConstraints.
  apply fold_left_fixed. intros i _.
  unfold Blob.distanceConstraint.
  destruct (pts !! i) as [cur |] eqn:Hi; [| reflexivity].
  destruct (pts !! ((i + 1) mod length pts)%nat) as [next |] eqn:Hj; [| reflexivity].
  destruct (Rgt_dec _ c) as [Hgt | _]; [| reflexivity].
  exfalso. specialize (H i cur next Hi Hj). unfold Rgt in Hgt. lra.
Qed.


(** ** Loops over the indices of the ring *)


Lemma map_alter_same {A B : Type} (g : A -> B) (f : A -> A) (i : nat)
    (l : list A) :
  (forall x, g (f x) = g x) -> map g (alter f i l) = map g l.
Proof.
  intros Hg. revert i. induction l as [| x l IH]; intros [| i]; cbn;
    try reflexivity.
  - now rewrite Hg.
  - f_equal. apply IH.
Qed.

(** ** What the solver never touches *)

Lemma distanceConstraint_keeps {B : Type} (g : BlobPoint.t -> B) (c : R)
    (pts : list BlobPoint.t) (i : nat) :
  (forall o p, g (BlobPoint.accumulateDisplacement o p) = g p) ->
  map g (Blob.distanceConstraint c pts i) = map g pts.
Proof.
  intros Hg. unfold Blob.distanceConstraint.
  destruct (pts !! i); [| reflexivity].
  destruct (pts !! _); [| reflexivity].
  destruct (Rgt_dec _ _); [| reflexivity].
  rewrite !map_alter_same by (intros; apply Hg). reflexivity.
Qed.

Lemma dilate_keeps {B : Type} (g : BlobPoint.t -> B) (offset : R)
    (pts : list BlobPoint.t) (i : nat) :
  (forall o p, g (BlobPoint.accumulateDisplacement o p) = g p) ->
  map g (Blob.dilate offset pts i) = map g pts.
Proof.
  intros Hg. unfold Blob.dilate.
  destruct (Blob.dilationNormal _ _ _); [| reflexivity].
  now rewrite map_alter_same by (intros; apply Hg).
Qed.

Lemma fold_left_keeps {A B C : Type} (g : A -> C) (f : list A -> B -> list A)
    (l : list B) (pts : list A) :
  (forall pts x, map g (f pts x) = map g pts) ->
  map g (fold_left f l pts) = map g pts.
Proof.
  intros Hf. revert pts. induction l as [| x l IH]; intros pts; cbn;
    [reflexivity |].
  now rewrite IH, Hf.
Qed.

Lemma distanceConstraints_keeps {B : Type} (g : BlobPoint.t -> B) (c : R)
    (pts : list BlobPoint.t) :
  (forall o p, g (BlobPoint.accumulateDisplacement o p) = g p) ->
  map g (Blob.distanceConstraints c pts) = map g pts.
Proof.
  intros Hg. unfold Blob.distanceConstraints.
  apply fold_left_keeps. intros. now apply distanceConstraint_keeps.
Qed.

Lemma dilation_keeps {B : Type} (g : BlobPoint.t -> B) (a c : R)
    (pts : list BlobPoint.t) :
  (forall o p, g (BlobPoint.accumulateDisplacement o p) = g p) ->
  map g (Blob.dilation a c pts) = map g pts.
Proof.
  intros Hg. unfold Blob.dilation.
  apply fold_left_keeps. intros. now apply dilate_keeps.
Qed.

Lemma applyDisplacement_ppos (p : BlobPoint.t) :
  BlobPoint.ppos (BlobPoint.applyDisplacement p) = BlobPoint.ppos p.
Proof. unfold BlobPoint.applyDisplacement. now destruct (_ <? _)%nat. Qed.

Lemma collide_ppos (scene : Scene) (p : BlobPoint.t) :
  BlobPoint.ppos (Blob.collide scene p) = BlobPoint.ppos p.
Proof.
  unfold Blob.collide, BlobPoint.collideWithPointer.
  destruct (pointerWorld scene); [| reflexivity].
  now destruct (Rlt_dec _ _).
Qed.

Lemma relax_ppos (scene : Scene) (b : Blob.t) (pts : list BlobPoint.t) :
  map BlobPoint.ppos (Blob.relax scene b pts) = map BlobPoint.ppos pts.
Proof.
  unfold Blob.relax. rewrite !map_map.
  erewrite map_ext; [| intros p; rewrite collide_ppos, applyDisplacement_ppos;
                       reflexivity].
  rewrite dilation_keeps, distanceConstraints_keeps by reflexivity.
  reflexivity.
Qed.

Lemma relaxation_ppos (scene : Scene) (b : Blob.t) (iterations : nat) :
  forall pts,
    map BlobPoint.ppos (Blob.relaxation iterations scene b pts)
    = map BlobPoint.ppos pts.
Proof.
  induction iterations as [| k IH]; intros pts; cbn [Blob.relaxation];
    [reflexivity |].
  now rewrite IH, relax_ppos.
Qed.

Lemma update_length (scene : Scene) (iterations : nat) (b : Blob.t) :
  length (Blob.points (Blob.update scene iterations b)) = length (Blob.points b).
Proof.
  pose proof (relaxation_ppos scene b iterations
                (map (fun p => BlobPoint.applyGravity 1
                                 (BlobPoint.verletIntegrate 0.99 p))
                     (Blob.points b))) as H.
  apply (f_equal length) in H. rewrite !length_map in H. exact H.
Qed.


(** ** The accumulators *)

Lemma distanceConstraints_length (c : R) (pts : list BlobPoint.t) :
  length (Blob.distanceConstraints c pts) = length pts.
Proof.
  pose proof (distanceConstraints_keeps (fun _ => tt) c pts
                ltac:(reflexivity)) as H.
  apply (f_equal length) in H. now rewrite !length_map in H.
Qed.











(** ** The distance loop, point by point *)











(** ** The dilation loop, point by point *)






(** ** One round of [Blob.update], point by point *)











(** ** The dilation on degenerate and on horizontal neighbours *)

Lemma dilationNormal_coincident (offset : R) (pts : list BlobPoint.t) (i : nat)
    (prev next : BlobPoint.t) :
  pts !! ((i + length pts - 1) mod length pts)%nat = Some prev ->
  pts !! ((i + 1) mod length pts)%nat = Some next ->
  BlobPoint.pos prev = BlobPoint.pos next ->
  Blob.dilationNormal offset pts i = Some (Vector2.mk 0 0).
Proof.
  intros Hp Hn E. unfold Blob.dilationNormal. rewrite Hp, Hn, E.
  now rewrite Vector2_subtract_self, Vector2_rotate_zero, setLength_zero.
Qed.

(** The dilation step on a point whose neighbours lie on a horizontal
    line: the normal is vertical. *)
Lemma dilate_horizontal (offset s : R) (pts : list BlobPoint.t) (i : nat)
    (prev next : BlobPoint.t) :
  pts !! ((i + length pts - 1) mod length pts)%nat = Some prev ->
  pts !! ((i + 1) mod length pts)%nat = Some next ->
  Vector2.subtract (BlobPoint.pos next) (BlobPoint.pos prev) = Vector2.mk s 0 ->
  s <> 0 ->
  Blob.dilate offset pts i =
  alter (BlobPoint.accumulateDisplacement
           (Vector2.mk 0 (- s / Rabs (- s) * offset))) i pts.
Proof.
  intros Hp Hn Hsec Hs. unfold Blob.dilate, Blob.dilationNormal.
  rewrite Hp, Hn, Hsec, Vector2_rotate_quarter, setLength_axis_y by lra.
  reflexivity.
Qed.

(** The distance step on a pair that lies on a horizontal line, [d] being
    the abscissa of [next] minus that of [cur]. *)
Lemma distanceConstraint_horizontal (c d : R) (pts : list BlobPoint.t) (i : nat)
    (cur next : BlobPoint.t) :
  pts !! i = Some cur ->
  pts !! ((i + 1) mod length pts)%nat = Some next ->
  Vector2.subtract (BlobPoint.pos next) (BlobPoint.pos cur) = Vector2.mk d 0 ->
  d <> 0 -> c < Rabs d ->
  Blob.distanceConstraint c pts i =
  alter (BlobPoint.accumulateDisplacement
           (Vector2.mk (- (d / Rabs d * ((Rabs d - c) / 2))) 0))
    ((i + 1) mod length pts)%nat
    (alter (BlobPoint.accumulateDisplacement
              (Vector2.mk (d / Rabs d * ((Rabs d - c) / 2)) 0)) i pts).
Proof.
  intros Hi Hj Hdiff Hd Hc.
  rewrite (distanceConstraint_stretched c pts i cur next Hi Hj);
    rewrite Hdiff, Vector2_length_axis_x; [| exact Hc].
  cbv zeta. rewrite setLength_axis_x by exact Hd.
  unfold Vector2.scale. cbn [Vector2.x Vector2.y].
  do 3 f_equal; lra.
Qed.

(** ** A ring whose three points coincide *)

Lemma collide_cleared (scene : Scene) (q : BlobPoint.t) :
  cleared q -> cleared (Blob.collide scene q).
Proof.
  intros [Hd Hw]. unfold Blob.collide.
  destruct (pointerWorld scene) as [pw |]; [| exact (conj Hd Hw)].
  unfold BlobPoint.collideWithPointer.
  destruct (Rlt_dec _ 100); exact (conj Hd Hw).
Qed.

(** One round on three coincident points with clear accumulators: no pair
    is stretched, every secant is zero, and only the collisions act. *)
Lemma relax_coincident (scene : Scene) (b : Blob.t) (q : BlobPoint.t) :
  0 <= Blob.chordLength b -> cleared q ->
  Blob.relax scene b [q; q; q] =
  [Blob.collide scene q; Blob.collide scene q; Blob.collide scene q].
Proof.
  intros Hc [Hd Hw]. unfold Blob.relax.
  set (pts := [q; q; q]).
  assert (Hdist : Blob.distanceConstraints (Blob.chordLength b) pts = pts).
  { apply distanceConstraints_slack. intros i cur next Hi Hj.
    assert (Hcur : cur = q).
    { apply list_elem_of_lookup_2 in Hi. subst pts.
      repeat (apply elem_of_cons in Hi; destruct Hi as [-> | Hi]; [reflexivity |]).
      now apply elem_of_nil in Hi. }
    assert (Hnext : next = q).
    { apply list_elem_of_lookup_2 in Hj. subst pts.
      repeat (apply elem_of_cons in Hj; destruct Hj as [-> | Hj]; [reflexivity |]).
      now apply elem_of_nil in Hj. }
    subst cur next.
    rewrite Vector2_subtract_self, Vector2_length_zero_vector. exact Hc. }
  rewrite Hdist.
  assert (Hdil : Blob.dilation (Blob.area b) (Blob.circumference b) pts =
                 map (BlobPoint.accumulateDisplacement (Vector2.mk 0 0)) pts).
  { unfold Blob.dilation. set (offset := _ / _). subst pts.
    cbn [length seq fold_left]. unfold Blob.dilate.
    erewrite (dilationNormal_coincident offset _ 0) by reflexivity.
    cbn [alter list_alter].
    erewrite (dilationNormal_coincident offset _ 1) by reflexivity.
    cbn [alter list_alter].
    erewrite (dilationNormal_coincident offset _ 2) by reflexivity.
    reflexivity. }
  rewrite Hdil. subst pts. cbn [map].
  assert (Happ : BlobPoint.applyDisplacement
                   (BlobPoint.accumulateDisplacement (Vector2.mk 0 0) q) = q).
  { destruct q as [[px py] pp d w]. cbn in Hd, Hw. subst d w.
    unfold BlobPoint.applyDisplacement, BlobPoint.accumulateDisplacement.
    cbn. f_equal. unfold Vector2.add, Vector2.scale.
    cbn [Vector2.x Vector2.y]. f_equal; lra. }
  rewrite Happ. reflexivity.
Qed.

Lemma relaxation_coincident (iterations : nat) (scene : Scene) (b : Blob.t) :
  0 <= Blob.chordLength b ->
  forall q, cleared q ->
    Blob.relaxation iterations scene b [q; q; q] =
    [Nat.iter iterations (Blob.collide scene) q;
     Nat.iter iterations (Blob.collide scene) q;
     Nat.iter iterations (Blob.collide scene) q].
Proof.
  intros Hc. induction iterations as [| n IH]; intros q Hq; [reflexivity |].
  cbn [Blob.relaxation]. rewrite relax_coincident by assumption.
  rewrite IH by (apply collide_cleared; exact Hq).
  now rewrite Nat.iter_succ_r.
Qed.

(** [update] on the coincident ring: the three points fall by one unit,
    then each round only collides them. *)
Lemma update_coincidentBlob (scene : Scene) (iterations : nat) :
  Blob.points (Blob.update scene iterations coincidentBlob) =
  [Nat.iter iterations (Blob.collide scene) fallenPoint;
   Nat.iter iterations (Blob.collide scene) fallenPoint;
   Nat.iter iterations (Blob.collide scene) fallenPoint].
Proof.
  pose proof PI_RGT_0 as Hpi.
  unfold Blob.update. cbn [Blob.points coincidentBlob map].
  assert (Hfall : BlobPoint.applyGravity 1
                    (BlobPoint.verletIntegrate 0.99 restingPoint) = fallenPoint).
  { unfold fallenPoint, restingPoint, BlobPoint.applyGravity,
      BlobPoint.verletIntegrate, BlobPoint.constructor.
    cbn. f_equal. f_equal; lra. }
  rewrite Hfall. apply relaxation_coincident.
  - unfold coincidentBlob. cbn [Blob.chordLength]. lra.
  - split; reflexivity.
Qed.

(** The coincident ring has the rest quantities and the number of points
    of a blob that the constructor builds. *)
Lemma coincidentBlob_rest_quantities (origin : Vector2.t) :
  exists b,
    Blob.constructor origin 3 50 1 = Normal b /\
    Blob.radius coincidentBlob = Blob.radius b /\
    Blob.area coincidentBlob = Blob.area b /\
    Blob.circumference coincidentBlob = Blob.circumference b /\
    Blob.chordLength coincidentBlob = Blob.chordLength b /\
    length (Blob.points coincidentBlob) = length (Blob.points b).
Proof. eexists. split; [reflexivity |]. repeat split. Qed.

Lemma collide_pointerBeside (q : BlobPoint.t) :
  BlobPoint.pos q = Vector2.mk 20 20 \/ BlobPoint.pos q = Vector2.mk (-50) 20 ->
  BlobPoint.pos (Blob.collide pointerBeside q) = Vector2.mk (-50) 20.
Proof.
  intros Hq. unfold Blob.collide. cbn [pointerBeside width height pointerWorld].
  assert (Hk : BlobPoint.pos (BlobPoint.keepInBounds 1000 1000 q) = Vector2.mk 20 20 \/
               BlobPoint.pos (BlobPoint.keepInBounds 1000 1000 q) = Vector2.mk 0 20).
  { unfold BlobPoint.keepInBounds. cbn [BlobPoint.pos].
    destruct Hq as [-> | ->]; cbn [Vector2.x Vector2.y]; [left | right].
    - rewrite !Clamp_id by lra. reflexivity.
    - rewrite Clamp_low, Clamp_id by lra. reflexivity. }
  set (k := BlobPoint.keepInBounds 1000 1000 q) in *.
  unfold BlobPoint.collideWithPointer, Distance_Between.
  destruct Hk as [-> | ->]; cbn [Vector2.x Vector2.y].
  - replace ((20 - 50) * (20 - 50) + (20 - 20) * (20 - 20)) with (30 * 30) by lra.
    rewrite sqrt_square by lra.
    destruct (Rlt_dec 30 100) as [_ | Hn]; [| exfalso; lra].
    cbn [BlobPoint.pos]. unfold Vector2.subtract. cbn [Vector2.x Vector2.y].
    replace (20 - 20) with 0 by lra.
    rewrite setLength_axis_x, Rabs_left by lra.
    unfold Vector2.add. cbn [Vector2.x Vector2.y]. f_equal; field.
  - replace ((0 - 50) * (0 - 50) + (20 - 20) * (20 - 20)) with (50 * 50) by lra.
    rewrite sqrt_square by lra.
    destruct (Rlt_dec 50 100) as [_ | Hn]; [| exfalso; lra].
    cbn [BlobPoint.pos]. unfold Vector2.subtract. cbn [Vector2.x Vector2.y].
    replace (20 - 20) with 0 by lra.
    rewrite setLength_axis_x, Rabs_left by lra.
    unfold Vector2.add. cbn [Vector2.x Vector2.y]. f_equal; field.
Qed.

Lemma collide_pointerOnPoint (q : BlobPoint.t) :
  BlobPoint.pos q = Vector2.mk 20 20 ->
  BlobPoint.pos (Blob.collide pointerOnPoint q) = Vector2.mk 20 20.
Proof.
  intros Hq. unfold Blob.collide. cbn [pointerOnPoint width height pointerWorld].
  assert (Hk : BlobPoint.pos (BlobPoint.keepInBounds 1000 1000 q) = Vector2.mk 20 20).
  { unfold BlobPoint.keepInBounds. cbn [BlobPoint.pos]. rewrite Hq.
    cbn [Vector2.x Vector2.y]. rewrite !Clamp_id by lra. reflexivity. }
  set (k := BlobPoint.keepInBounds 1000 1000 q) in *.
  unfold BlobPoint.collideWithPointer, Distance_Between.
  rewrite Hk. cbn [Vector2.x Vector2.y].
  replace ((20 - 20) * (20 - 20) + (20 - 20) * (20 - 20)) with 0 by lra.
  rewrite sqrt_0.
  destruct (Rlt_dec 0 100) as [_ | Hn]; [| exfalso; lra].
  cbn [BlobPoint.pos].
  rewrite Vector2_subtract_self, setLength_zero.
  unfold Vector2.add. cbn [Vector2.x Vector2.y]. f_equal; lra.
Qed.

(** Round after round the pointer beside the points sends them back to
    [(-50, 20)], and the pointer on the points leaves them at [(20, 20)]. *)
Lemma iter_collide_pointerBeside (n : nat) :
  BlobPoint.pos (Nat.iter (S n) (Blob.collide pointerBeside) fallenPoint)
  = Vector2.mk (-50) 20.
Proof.
  induction n as [| n IH].
  - apply collide_pointerBeside. left. reflexivity.
  - change (Nat.iter (S (S n)) (Blob.collide pointerBeside) fallenPoint)
      with (Blob.collide pointerBeside
              (Nat.iter (S n) (Blob.collide pointerBeside) fallenPoint)).
    apply collide_pointerBeside. right. exact IH.
Qed.

Lemma iter_collide_pointerOnPoint (n : nat) :
  BlobPoint.pos (Nat.iter n (Blob.collide pointerOnPoint) fallenPoint)
  = Vector2.mk 20 20.
Proof.
  induction n as [| n IH]; [reflexivity |].
  change (Nat.iter (S n) (Blob.collide pointerOnPoint) fallenPoint)
    with (Blob.collide pointerOnPoint
            (Nat.iter n (Blob.collide pointerOnPoint) fallenPoint)).
  apply collide_pointerOnPoint. exact IH.
Qed.

Lemma update_bounds_witness :
  (1 <= 10)%nat /\ 0 <= width pointerBeside /\ 0 <= height pointerBeside /\
  Forall
    (fun p =>
       exists q0,
         p = Blob.collide pointerBeside q0 /\
         inBounds pointerBeside
           (BlobPoint.pos (BlobPoint.keepInBounds 1000 1000 q0)))
    (Blob.points (Blob.update pointerBeside 10 coincidentBlob)).
Proof.
  assert (H1 : (1 <= 10)%nat) by lia.
  assert (Hw : 0 <= width pointerBeside) by (cbn; lra).
  assert (Hh : 0 <= height pointerBeside) by (cbn; lra).
  split; [exact H1 |]. split; [exact Hw |]. split; [exact Hh |].
  eapply Forall_impl;
    [exact (update_bounds pointerBeside 10 coincidentBlob H1 Hw Hh) |].
  cbn beta. intros p (q0 & Hp & Hq & _). exists q0. split; [exact Hp | exact Hq].
Defined.

(** C2 fails as stated: three points falling to [(20, 20)], inside a world
    of 1000 by 1000, with the repulsion point at [(50, 20)]; in each of the
    10 rounds every point is pushed, after the clamp, to [(-50, 20)], left
    of the world. *)
Lemma update_bounds_counterexample :
  Forall (fun p => BlobPoint.pos p = Vector2.mk (-50) 20)
    (Blob.points (Blob.update pointerBeside 10 coincidentBlob)) /\
  ~ Forall (fun p => inBounds pointerBeside (BlobPoint.pos p))
      (Blob.points (Blob.update pointerBeside 10 coincidentBlob)).
Proof.
  rewrite update_coincidentBlob.
  split.
  - repeat constructor; apply (iter_collide_pointerBeside 9).
  - intros H. apply Forall_cons in H. destruct H as [[[Hx _] _] _].
    rewrite (iter_collide_pointerBeside 9) in Hx. cbn in Hx. lra.
Qed.

Lemma update_repulsion_witness :
  (1 <= 10)%nat /\ pointerWorld pointerBeside = Some (Vector2.mk 50 20) /\
  Forall
    (fun p =>
       exists q0,
         p = BlobPoint.collideWithPointer (Some (Vector2.mk 50 20))
               (BlobPoint.keepInBounds 1000 1000 q0))
    (Blob.points (Blob.update pointerBeside 10 coincidentBlob)).
Proof.
  assert (H1 : (1 <= 10)%nat) by lia.
  assert (Hp : pointerWorld pointerBeside = Some (Vector2.mk 50 20)) by reflexivity.
  split; [exact H1 |]. split; [exact Hp |].
  eapply Forall_impl;
    [exact (update_repulsion pointerBeside 10 coincidentBlob (Vector2.mk 50 20)
              H1 Hp) |].
  cbn beta. intros p (q0 & Hq & _). exists q0. exact Hq.
Defined.

(** C3 fails as stated: with the repulsion point at [(20, 20)], exactly
    where the three points fall, no round moves any point, and after 10
    rounds each is at distance 0 from the repulsion point. *)
Lemma update_repulsion_counterexample :
  Forall (fun p => pointerDistance p (Vector2.mk 20 20) = 0)
    (Blob.points (Blob.update pointerOnPoint 10 coincidentBlob)) /\
  ~ Forall (fun p => 100 - 1 <= pointerDistance p (Vector2.mk 20 20))
      (Blob.points (Blob.update pointerOnPoint 10 coincidentBlob)).
Proof.
  rewrite update_coincidentBlob.
  assert (H0 : pointerDistance
                 (Nat.iter 10 (Blob.collide pointerOnPoint) fallenPoint)
                 (Vector2.mk 20 20) = 0).
  { rewrite pointerDistance_length, iter_collide_pointerOnPoint,
      Vector2_subtract_self. apply Vector2_length_zero_vector. }
  split.
  - repeat constructor; exact H0.
  - intros H. apply Forall_cons in H. destruct H as [H _].
    rewrite H0 in H. lra.
Qed.

(** ** A ring stretched along a horizontal line *)

Lemma PI_bounds : 3 < PI <= 4.
Proof. pose proof PI2_3_2. pose proof PI_4. lra. Qed.

(** Abscissas after one [update] with one round: the first point has moved
    a third of the way it was asked to, the second not at all. *)
Lemma update_stretchedBlob_x :
  exists pa pb pc,
    Blob.points (Blob.update wideScene 1 stretchedBlob) = [pa; pb; pc] /\
    Vector2.x (BlobPoint.pos pa) = 1500 - Blob.chordLength stretchedBlob / 3 /\
    Vector2.x (BlobPoint.pos pb) = 2000.
Proof.
  pose proof PI_bounds as Hpi.
  unfold Blob.update. cbn [Blob.points stretchedBlob map].
  cbn [Blob.relaxation]. unfold Blob.relax.
  cbn [Blob.chordLength Blob.area Blob.circumference stretchedBlob].
  set (c := 50 * PI * 2 / 3).
  assert (Hc : 0 < c < 134) by (unfold c; lra).
  assert (Hfall : forall x0,
            BlobPoint.applyGravity 1 (BlobPoint.verletIntegrate 0.99
              (BlobPoint.constructor (Vector2.mk x0 100))) =
            BlobPoint.mk (Vector2.mk x0 101) (Vector2.mk x0 100) (Vector2.mk 0 0) 0).
  { intros x0. unfold BlobPoint.applyGravity, BlobPoint.verletIntegrate,
      BlobPoint.constructor. cbn. f_equal. f_equal; lra. }
  rewrite !Hfall. clear Hfall.
  (* the distance constraints *)
  unfold Blob.distanceConstraints. cbn [length seq fold_left].
  erewrite (distanceConstraint_horizontal c 1000 _ 0); try reflexivity; cycle 1.
  { vec_eq. }
  { lra. }
  { rewrite Rabs_pos_eq; lra. }
  cbn [alter list_alter Nat.modulo Nat.divmod Nat.add fst snd Nat.sub length].
  erewrite (distanceConstraint_horizontal c 1000 _ 1); try reflexivity; cycle 1.
  { vec_eq. }
  { lra. }
  { rewrite Rabs_pos_eq; lra. }
  cbn [alter list_alter Nat.modulo Nat.divmod Nat.add fst snd Nat.sub length].
  erewrite (distanceConstraint_horizontal c (-2000) _ 2); try reflexivity; cycle 1.
  { vec_eq. }
  { lra. }
  { rewrite Rabs_left; lra. }
  cbn [alter list_alter Nat.modulo Nat.divmod Nat.add fst snd Nat.sub length].
  rewrite (Rabs_pos_eq 1000), (Rabs_left (-2000)) by lra.
  (* the dilation *)
  unfold Blob.dilation. set (offset := _ / (50 * PI * 2)). clearbody offset.
  cbn [length seq fold_left].
  erewrite (dilate_horizontal offset (-1000) _ 0); try reflexivity; cycle 1.
  { vec_eq. }
  { lra. }
  cbn [alter list_alter Nat.modulo Nat.divmod Nat.add fst snd Nat.sub length].
  erewrite (dilate_horizontal offset 2000 _ 1); try reflexivity; cycle 1.
  { vec_eq. }
  { lra. }
  cbn [alter list_alter Nat.modulo Nat.divmod Nat.add fst snd Nat.sub length].
  erewrite (dilate_horizontal offset (-1000) _ 2); try reflexivity; cycle 1.
  { vec_eq. }
  { lra. }
  cbn [alter list_alter Nat.modulo Nat.divmod Nat.add fst snd Nat.sub length].
  (* the displacements are applied, and the points kept in bounds *)
  cbn [map BlobPoint.applyDisplacement BlobPoint.accumulateDisplacement
       BlobPoint.displacementWeight BlobPoint.displacement BlobPoint.pos
       BlobPoint.ppos Nat.add Nat.ltb Nat.leb].
  unfold Blob.collide, BlobPoint.keepInBounds.
  cbn [wideScene pointerWorld width height BlobPoint.pos BlobPoint.ppos
       BlobPoint.displacement BlobPoint.displacementWeight].
  do 3 eexists. split; [reflexivity |].
  unfold Vector2.add, Vector2.scale.
  cbn [BlobPoint.pos Vector2.x Vector2.y INR].
  split.
  - match goal with |- Clamp ?e _ _ = _ =>
      replace e with (1500 - c / 3) by (unfold c; field) end.
    apply Clamp_id. lra.
  - match goal with |- Clamp ?e _ _ = _ =>
      replace e with 2000 by (unfold c; field) end.
    apply Clamp_id. lra.
Qed.

(** The stretched ring likewise. *)
Lemma stretchedBlob_rest_quantities (origin : Vector2.t) :
  exists b,
    Blob.constructor origin 3 50 1 = Normal b /\
    Blob.radius stretchedBlob = Blob.radius b /\
    Blob.area stretchedBlob = Blob.area b /\
    Blob.circumference stretchedBlob = Blob.circumference b /\
    Blob.chordLength stretchedBlob = Blob.chordLength b /\
    length (Blob.points stretchedBlob) = length (Blob.points b).
Proof. eexists. split; [reflexivity |]. repeat split. Qed.

(** One round does not bring a stretched pair back: after one [update] with
    one round the first two points of the stretched ring ([chordLength] about
    104.7) are still more than [chordLength + 400] apart. *)
Lemma update_stretchedBlob_chord :
  exists pa pb pc,
    Blob.points (Blob.update wideScene 1 stretchedBlob) = [pa; pb; pc] /\
    Blob.chordLength stretchedBlob + 400 <
    Vector2.length (Vector2.subtract (BlobPoint.pos pb) (BlobPoint.pos pa)).
Proof.
  destruct update_stretchedBlob_x as (pa & pb & pc & E & Ha & Hb).
  exists pa, pb, pc. split; [exact E |].
  eapply Rlt_le_trans; [| apply Vector2_length_ge_x].
  unfold Vector2.subtract. cbn [Vector2.x]. rewrite Ha, Hb.
  pose proof PI_bounds as Hpi.
  assert (Hc : 0 < Blob.chordLength stretchedBlob < 134) by (cbn; lra).
  rewrite Rabs_pos_eq; lra.
Qed.

(** ** A square ring with the pointer at its centre *)



















(** ** The constructors *)

(** C6, as amended.  Neither constructor checks its arguments:
    construction completes normally for every argument tuple, also with
    fewer than three points, a radius or segment length that is not
    positive, or a negative angle range.  The blob has as many points as
    the loop makes rounds ([Z.to_nat numPoints], none when [numPoints <=
    0]) and the rest quantities computed from the arguments as given; the
    limb stores its arguments as given. *)
Theorem constructors_accept_all :
  (forall origin numPoints radius puffiness,
     exists b,
       Blob.constructor origin numPoints radius puffiness = Normal b /\
       length (Blob.points b) = Z.to_nat numPoints /\
       Blob.radius b = radius /\
       Blob.area b = radius * radius * PI * puffiness /\
       Blob.circumference b = radius * PI * 2 /\
       Blob.chordLength b = radius * PI * 2 / IZR numPoints) /\
  (forall origin distance elbowRange elbowOffset footRange footOffset,
     exists l,
       Limb.constructor origin distance elbowRange elbowOffset footRange
         footOffset = Normal l /\
       Limb.distance l = distance /\
       Limb.elbowRange l = elbowRange /\
       Limb.footRange l = footRange).
Proof.
  split.
  - intros. eexists. split; [reflexivity |].
    cbn [Blob.points Blob.radius Blob.area Blob.circumference Blob.chordLength].
    rewrite length_map, length_seq. repeat split.
  - intros. eexists. split; [reflexivity |]. repeat split.
Qed.

(** C6 fails as stated: a blob of two points with radius [-1], and a limb
    with segment length [-56] and negative angle ranges, are constructed. *)
Lemma constructors_accept_all_counterexample :
  Blob.constructor (Vector2.mk 0 0) 2 (-1) 1 <> Throw /\
  Limb.constructor (Vector2.mk 0 0) (-56) (-1) 0 (-1) 0 <> Throw.
Proof. split; discriminate. Qed.

(* ===================================================================== *)
(** * Part V. Facts about the binary64 reading                            *)
(* ===================================================================== *)

Module Float64Facts.

Import Floats.PrimFloat Floats.SpecFloat Floats.FloatOps Floats.FloatAxioms.

(** ** Finite numbers and zeros, through their specification *)

Lemma Prim2SF_zero : Prim2SF 0%float = S754_zero false.
Proof. reflexivity. Qed.

Lemma Prim2SF_infinity : Prim2SF infinity = S754_infinity false.
Proof. reflexivity. Qed.

Lemma SFcompare_refl (s : bool) (m : positive) (e : Z) :
  SFcompare (S754_finite s m e) (S754_finite s m e) = Some Eq.
Proof.
  cbn [SFcompare]. rewrite Z.compare_refl.
  assert (H : Pos.compare_cont Eq m m = Eq) by apply Pos.compare_refl.
  rewrite H. now destruct s.
Qed.

Lemma is_finite_cases (x : float) :
  is_finite x = true ->
  isZero x \/ exists s m e, Prim2SF x = S754_finite s m e.
Proof.
  unfold is_finite, is_nan, is_infinity, isZero.
  rewrite !eqb_spec, abs_spec, Prim2SF_infinity.
  destruct (Prim2SF x) as [s | s | | s m e]; intros H.
  - left. eauto.
  - exfalso. cbn in H. rewrite Bool.orb_true_r in H. discriminate.
  - exfalso. cbn in H. discriminate.
  - right. eauto.
Qed.

Lemma is_finite_of_SF (x : float) :
  (isZero x \/ exists s m e, Prim2SF x = S754_finite s m e) ->
  is_finite x = true.
Proof.
  unfold is_finite, is_nan, is_infinity, isZero.
  rewrite !eqb_spec, abs_spec, Prim2SF_infinity.
  intros [[s ->] | (s & m & e & ->)].
  - reflexivity.
  - unfold SFeqb. rewrite SFcompare_refl. reflexivity.
Qed.

Lemma isZero_finite (z : float) : isZero z -> is_finite z = true.
Proof. intros H. apply is_finite_of_SF. now left. Qed.

Lemma isZero_eqb (z : float) : isZero z -> (z =? 0)%float = true.
Proof. intros [s H]. rewrite eqb_spec, H, Prim2SF_zero. reflexivity. Qed.

Lemma isZero_not_positive (z : float) : isZero z -> (0 <? z)%float = false.
Proof. intros [s H]. rewrite ltb_spec, H, Prim2SF_zero. reflexivity. Qed.

Lemma isZero_0 : isZero 0%float.
Proof. exists false. reflexivity. Qed.

(** A finite number minus itself is [+0]. *)
Lemma sub_self (x : float) : is_finite x = true -> (x - x)%float = 0%float.
Proof.
  intros Hx. apply Prim2SF_inj. rewrite sub_spec, Prim2SF_zero.
  destruct (is_finite_cases x Hx) as [[s ->] | (s & m & e & ->)].
  - now destruct s.
  - unfold SF64sub, SFsub. rewrite Z.sub_diag. reflexivity.
Qed.

Lemma mul_zero_l (z a : float) :
  isZero z -> is_finite a = true -> isZero (z * a)%float.
Proof.
  intros [s Hz] Ha. unfold isZero. rewrite mul_spec, Hz.
  destruct (is_finite_cases a Ha) as [[s' ->] | (s' & m & e & ->)];
    eexists; reflexivity.
Qed.

Lemma mul_zero_r (a z : float) :
  is_finite a = true -> isZero z -> isZero (a * z)%float.
Proof.
  intros Ha [s Hz]. unfold isZero. rewrite mul_spec, Hz.
  destruct (is_finite_cases a Ha) as [[s' ->] | (s' & m & e & ->)];
    eexists; reflexivity.
Qed.

Lemma add_zero_zero (a b : float) : isZero a -> isZero b -> isZero (a + b)%float.
Proof.
  intros [s Ha] [s' Hb]. unfold isZero. rewrite add_spec, Ha, Hb.
  destruct s, s'; eexists; reflexivity.
Qed.

Lemma sub_zero_zero (a b : float) : isZero a -> isZero b -> isZero (a - b)%float.
Proof.
  intros [s Ha] [s' Hb]. unfold isZero. rewrite sub_spec, Ha, Hb.
  destruct s, s'; eexists; reflexivity.
Qed.

(** Adding a zero to a finite number gives a finite number, equal to it
    (the sign of a zero may change). *)
Lemma add_zero_r (d z : float) :
  is_finite d = true -> isZero z ->
  (d + z =? d)%float = true /\ is_finite (d + z)%float = true.
Proof.
  intros Hd [s Hz].
  destruct (is_finite_cases d Hd) as [[s' Hd'] | (s' & m & e & Hd')].
  - assert (H : exists s'', Prim2SF (d + z)%float = S754_zero s'').
    { rewrite add_spec, Hd', Hz. destruct s', s; eexists; reflexivity. }
    destruct H as [s'' H]. split.
    + rewrite eqb_spec, H, Hd'. reflexivity.
    + apply isZero_finite. now exists s''.
  - assert (H : Prim2SF (d + z)%float = S754_finite s' m e).
    { rewrite add_spec, Hd', Hz. reflexivity. }
    split.
    + rewrite eqb_spec, H, Hd'. unfold SFeqb. now rewrite SFcompare_refl.
    + apply is_finite_of_SF. right. eauto.
Qed.

(** ** The two degenerate corrections *)

Lemma setLength_zeros (v : Float64.Vector2.t) (len : float) :
  isZero (Float64.Vector2.x v) -> isZero (Float64.Vector2.y v) ->
  isZero (Float64.Vector2.x (Float64.Vector2.setLength v len)) /\
  isZero (Float64.Vector2.y (Float64.Vector2.setLength v len)).
Proof.
  intros Hx Hy.
  unfold Float64.Vector2.setLength, Float64.Vector2.normalize.
  rewrite isZero_not_positive.
  2:{ apply add_zero_zero; apply mul_zero_l; auto using isZero_finite. }
  unfold Float64.Vector2.scale.
  destruct (is_finite len) eqn:Hlen.
  - cbn [Float64.Vector2.x Float64.Vector2.y].
    split; apply mul_zero_l; assumption.
  - cbn [Float64.Vector2.x Float64.Vector2.y]. split; apply isZero_0.
Qed.

Lemma collideWithPointer_coincident (pointer : Float64.Vector2.t)
    (p : Float64.BlobPoint.t) :
  is_finite (Float64.Vector2.x pointer) = true ->
  is_finite (Float64.Vector2.y pointer) = true ->
  Float64.BlobPoint.pos p = pointer ->
  Float64.BlobPoint.pos (Float64.BlobPoint.collideWithPointer (Some pointer) p) =
  Float64.Vector2.add pointer (Float64.Vector2.mk 0 0).
Proof.
  intros Hx Hy E.
  unfold Float64.BlobPoint.collideWithPointer, Float64.Distance_Between.
  rewrite E, !sub_self by assumption.
  change (sqrt (0 * 0 + 0 * 0) <? 100)%float with true.
  cbn [Float64.BlobPoint.pos]. unfold Float64.Vector2.subtract.
  rewrite !sub_self by assumption.
  reflexivity.
Qed.

(** C8.  In binary64 arithmetic, the two corrections that need a direction
    degenerate to no displacement when the direction is a zero vector, and
    give finite coordinates.  A boundary point that lies exactly on a finite
    repulsion point keeps its position.  When the two neighbours of a point
    coincide at a finite position, the dilation normal is a zero vector,
    whatever the offset asked for (be it infinite or not a number) and
    whatever finite values [Math.cos] and [Math.sin] return; accumulating
    it leaves a finite accumulated displacement equal to what it was. *)
Theorem degenerate_corrections :
  (forall (pointer : Float64.Vector2.t) (p : Float64.BlobPoint.t),
     is_finite (Float64.Vector2.x pointer) = true ->
     is_finite (Float64.Vector2.y pointer) = true ->
     Float64.BlobPoint.pos p = pointer ->
     let p' := Float64.BlobPoint.collideWithPointer (Some pointer) p in
     let x' := Float64.Vector2.x (Float64.BlobPoint.pos p') in
     let y' := Float64.Vector2.y (Float64.BlobPoint.pos p') in
     ((x' =? Float64.Vector2.x pointer) = true /\ is_finite x' = true) /\
     ((y' =? Float64.Vector2.y pointer) = true /\ is_finite y' = true))%float /\
  (forall (c s offset : float) (prev next cur : Float64.BlobPoint.t),
     is_finite c = true -> is_finite s = true ->
     is_finite (Float64.Vector2.x (Float64.BlobPoint.pos prev)) = true ->
     is_finite (Float64.Vector2.y (Float64.BlobPoint.pos prev)) = true ->
     Float64.BlobPoint.pos next = Float64.BlobPoint.pos prev ->
     is_finite (Float64.Vector2.x (Float64.BlobPoint.displacement cur)) = true ->
     is_finite (Float64.Vector2.y (Float64.BlobPoint.displacement cur)) = true ->
     let normal := Float64.Blob.dilationNormal c s offset prev next in
     let d := Float64.BlobPoint.displacement cur in
     let d' := Float64.BlobPoint.displacement
                 (Float64.BlobPoint.accumulateDisplacement normal cur) in
     ((Float64.Vector2.x normal =? 0) = true /\
      (Float64.Vector2.y normal =? 0) = true /\
      ((Float64.Vector2.x d' =? Float64.Vector2.x d) = true /\
       is_finite (Float64.Vector2.x d') = true) /\
      ((Float64.Vector2.y d' =? Float64.Vector2.y d) = true /\
       is_finite (Float64.Vector2.y d') = true))%float).
Proof.
  split.
  - intros pointer p Hx Hy E p' x' y'. subst x' y' p'.
    rewrite (collideWithPointer_coincident pointer p Hx Hy E).
    unfold Float64.Vector2.add. cbn [Float64.Vector2.x Float64.Vector2.y].
    split; apply add_zero_r; auto using isZero_0.
  - intros c s offset prev next cur Hc Hs Hpx Hpy E Hdx Hdy normal d d'.
    assert (Hn : isZero (Float64.Vector2.x normal) /\
                 isZero (Float64.Vector2.y normal)).
    { subst normal. unfold Float64.Blob.dilationNormal.
      rewrite E. unfold Float64.Vector2.subtract.
      rewrite !sub_self by assumption.
      apply setLength_zeros; unfold Float64.Vector2.rotate;
        cbn [Float64.Vector2.x Float64.Vector2.y].
      - apply sub_zero_zero; apply mul_zero_r; auto using isZero_0.
      - apply add_zero_zero; apply mul_zero_r; auto using isZero_0. }
    destruct Hn as [Hnx Hny].
    split; [apply isZero_eqb, Hnx |]. split; [apply isZero_eqb, Hny |].
    subst d d'. unfold Float64.BlobPoint.accumulateDisplacement.
    cbn [Float64.BlobPoint.displacement]. unfold Float64.Vector2.add.
    cbn [Float64.Vector2.x Float64.Vector2.y].
    split; apply add_zero_r; assumption.
Qed.

Lemma degenerate_corrections_witness :
  is_finite (Float64.Vector2.x Float64.pointerOnPoint) = true /\
  is_finite (Float64.Vector2.y Float64.pointerOnPoint) = true /\
  Float64.BlobPoint.pos Float64.fallenPoint = Float64.pointerOnPoint /\
  (Float64.Vector2.x
     (Float64.BlobPoint.pos
        (Float64.BlobPoint.collideWithPointer (Some Float64.pointerOnPoint)
           Float64.fallenPoint))
   =? 20)%float = true.
Proof.
  assert (Hx : is_finite (Float64.Vector2.x Float64.pointerOnPoint) = true)
    by reflexivity.
  assert (Hy : is_finite (Float64.Vector2.y Float64.pointerOnPoint) = true)
    by reflexivity.
  assert (E : Float64.BlobPoint.pos Float64.fallenPoint = Float64.pointerOnPoint)
    by reflexivity.
  split; [exact Hx |]. split; [exact Hy |]. split; [exact E |].
  exact (proj1 (proj1 (proj1 degenerate_corrections Float64.pointerOnPoint
                         Float64.fallenPoint Hx Hy E))).
Defined.

(** ** Rounding, from the specification of the operations *)

Section Rounding.

Local Open Scope Z_scope.

Lemma shr_1_m (mrs : shr_record) :
  0 <= shr_m mrs -> shr_m (shr_1 mrs) = Z.div2 (shr_m mrs).
Proof.
  destruct mrs as [m r s]. cbn [shr_m]. intros Hm.
  destruct m as [| [p | p |] | p]; try reflexivity; lia.
Qed.

Lemma iter_pos_shr_1_m (p : positive) : forall mrs : shr_record,
  0 <= shr_m mrs ->
  shr_m (iter_pos shr_1 p mrs) = Z.shiftr (shr_m mrs) (Zpos p).
Proof.
  assert (Hstep : forall mrs, 0 <= shr_m mrs ->
             0 <= shr_m (shr_1 mrs) /\
             shr_m (shr_1 mrs) = Z.shiftr (shr_m mrs) 1).
  { intros mrs Hm. rewrite shr_1_m by exact Hm.
    rewrite Z.div2_spec. split; [apply Z.shiftr_nonneg; exact Hm | reflexivity]. }
  induction p as [p IH | p IH |]; intros mrs Hm; cbn [iter_pos].
  - destruct (Hstep mrs Hm) as [H0 H1].
    rewrite IH by (rewrite IH by exact H0; apply Z.shiftr_nonneg; exact H0).
    rewrite IH by exact H0. rewrite H1.
    rewrite !Z.shiftr_shiftr by lia. f_equal. lia.
  - rewrite IH by (rewrite IH by exact Hm; apply Z.shiftr_nonneg; exact Hm).
    rewrite IH by exact Hm.
    rewrite !Z.shiftr_shiftr by lia. f_equal. lia.
  - apply Hstep. exact Hm.
Qed.

Lemma shr_record_of_loc_m (m : Z) (l : location) :
  shr_m (shr_record_of_loc m l) = m.
Proof. destruct l as [| []]; reflexivity. Qed.

(** [shr_fexp]: the mantissa is shifted right by the number of digits to
    drop, the exponent raised by as much. *)
Lemma shr_fexp_spec (m e : Z) (l : location) :
  0 <= m ->
  let s := Z.max (fexp prec emax (Zdigits2 m + e) - e) 0 in
  exists mrs,
    shr_fexp prec emax m e l = (mrs, e + s) /\
    shr_m mrs = m / 2 ^ s.
Proof.
  intros Hm s. subst s. unfold shr_fexp, shr.
  destruct (fexp prec emax (Zdigits2 m + e) - e) as [| p | p] eqn:En.
  - eexists. split; [f_equal; cbn; lia |].
    rewrite shr_record_of_loc_m. cbn. now rewrite Z.div_1_r.
  - eexists. split; [f_equal; cbn; lia |].
    rewrite iter_pos_shr_1_m by (rewrite shr_record_of_loc_m; exact Hm).
    rewrite shr_record_of_loc_m, Z.shiftr_div_pow2 by lia.
    reflexivity.
  - eexists. split; [f_equal; cbn; lia |].
    rewrite shr_record_of_loc_m. cbn. now rewrite Z.div_1_r.
Qed.

Lemma round_nearest_even_bounds (m : Z) (l : location) :
  m <= round_nearest_even m l <= m + 1.
Proof.
  unfold round_nearest_even. destruct l as [| []]; try lia.
  destruct (Z.even m); lia.
Qed.

Lemma digits2_pos_log2 (p : positive) :
  Zpos (digits2_pos p) = Z.log2 (Zpos p) + 1.
Proof.
  assert (H : forall q, digits2_pos q = Pos.size q).
  { induction q as [q IH | q IH |]; cbn; congruence. }
  rewrite H. destruct p as [p | p |]; cbn; lia.
Qed.

Lemma Zdigits2_le (m d : Z) : 0 <= m -> 0 <= d -> m < 2 ^ d -> Zdigits2 m <= d.
Proof.
  intros Hm Hd Hlt. destruct m as [| p | p]; [cbn; lia | | lia].
  cbn [Zdigits2]. rewrite digits2_pos_log2.
  assert (Z.log2 (Zpos p) < d) by (apply Z.log2_lt_pow2; lia). lia.
Qed.

(** The exponent of a number below a given double. *)
Lemma fexp_below (k ek m e : Z) :
  k < 2 ^ 53 -> emin <= ek ->
  0 <= m -> e <= ek -> m <= k * 2 ^ (ek - e) ->
  fexp prec emax (Zdigits2 m + e) <= ek.
Proof.
  intros Hk Hek Hm He Hle.
  assert (Hd : Zdigits2 m <= 53 + (ek - e)).
  { apply Zdigits2_le; [exact Hm | lia |].
    rewrite Z.pow_add_r by lia.
    assert (0 < 2 ^ (ek - e)) by (apply Z.pow_pos_nonneg; lia). nia. }
  revert Hek. unfold fexp, emin, prec, emax. lia.
Qed.

(** Rounding is monotone at a double: what lies below [k * 2^ek], a double
    or a smaller such number, is rounded to a number that is at most it. *)
Lemma binary_round_aux_below (k ek : Z) (sx : bool) (m e : Z) (l : location) :
  k < 2 ^ 53 -> emin <= ek <= emax - prec ->
  0 <= m -> e <= ek -> m < k * 2 ^ (ek - e) ->
  exists m2 e2,
    0 <= m2 /\ e2 <= ek /\ m2 <= k * 2 ^ (ek - e2) /\
    binary_round_aux prec emax sx m e l =
    match m2 with
    | Z0 => S754_zero sx
    | Zpos p => S754_finite sx p e2
    | Zneg _ => S754_nan
    end.
Proof.
  intros Hk [Hek Hek'] Hm He Hlt. unfold binary_round_aux.
  destruct (shr_fexp_spec m e l Hm) as (mrs1 & E1 & Hm1). cbn zeta in E1, Hm1.
  set (s1 := Z.max (fexp prec emax (Zdigits2 m + e) - e) 0) in *.
  rewrite E1.
  pose proof (fexp_below k ek m e Hk Hek Hm He ltac:(lia)) as Hf1.
  assert (Hs1 : 0 <= s1) by (unfold s1; lia).
  assert (He1 : e + s1 <= ek) by (unfold s1; lia).
  assert (Hpow1 : 0 < 2 ^ s1) by (apply Z.pow_pos_nonneg; lia).
  assert (Hm1lt : shr_m mrs1 < k * 2 ^ (ek - (e + s1))).
  { rewrite Hm1. apply Z.div_lt_upper_bound; [exact Hpow1 |].
    replace (ek - e) with ((ek - (e + s1)) + s1) in Hlt by lia.
    rewrite Z.pow_add_r in Hlt by lia. lia. }
  assert (Hm1nn : 0 <= shr_m mrs1).
  { rewrite Hm1. apply Z.div_pos; [exact Hm | exact Hpow1]. }
  pose proof (round_nearest_even_bounds (shr_m mrs1) (loc_of_shr_record mrs1))
    as Hr.
  set (m1 := round_nearest_even (shr_m mrs1) (loc_of_shr_record mrs1)) in *.
  destruct (shr_fexp_spec m1 (e + s1) loc_Exact ltac:(lia)) as (mrs2 & E2 & Hm2).
  cbn zeta in E2, Hm2.
  set (s2 := Z.max (fexp prec emax (Zdigits2 m1 + (e + s1)) - (e + s1)) 0) in *.
  rewrite E2.
  pose proof (fexp_below k ek m1 (e + s1) Hk Hek ltac:(lia) He1 ltac:(lia)) as Hf2.
  assert (Hs2 : 0 <= s2) by (unfold s2; lia).
  assert (He2 : e + s1 + s2 <= ek) by (unfold s2; lia).
  assert (Hpow2 : 0 < 2 ^ s2) by (apply Z.pow_pos_nonneg; lia).
  assert (Hm2nn : 0 <= shr_m mrs2).
  { rewrite Hm2. apply Z.div_pos; [lia | exact Hpow2]. }
  assert (Hm2le : shr_m mrs2 <= k * 2 ^ (ek - (e + s1 + s2))).
  { rewrite Hm2.
    assert (Hsplit : k * 2 ^ (ek - (e + s1))
                     = k * 2 ^ (ek - (e + s1 + s2)) * 2 ^ s2).
    { rewrite <- Z.mul_assoc, <- Z.pow_add_r by lia. do 2 f_equal. lia. }
    apply Z.div_le_upper_bound; [exact Hpow2 |]. lia. }
  exists (shr_m mrs2), (e + s1 + s2).
  split; [exact Hm2nn |]. split; [exact He2 |]. split; [exact Hm2le |].
  destruct (shr_m mrs2) as [| p | p]; [reflexivity | | lia].
  replace (e + s1 + s2 <=? emax - prec) with true; [reflexivity |].
  symmetry. apply Z.leb_le. lia.
Qed.

Lemma twoPiMantissa_bounds : 2 ^ 52 <= twoPiMantissa < 2 ^ 53.
Proof. split; [vm_compute; discriminate | vm_compute; reflexivity]. Qed.

Lemma binary_round_aux_sign (sx : bool) (m e : Z) (l : location) :
  0 <= m ->
  binary_round_aux prec emax sx m e l = S754_zero sx \/
  binary_round_aux prec emax sx m e l = S754_infinity sx \/
  exists p e', binary_round_aux prec emax sx m e l = S754_finite sx p e'.
Proof.
  intros Hm. unfold binary_round_aux.
  destruct (shr_fexp_spec m e l Hm) as (mrs1 & E1 & Hm1). rewrite E1.
  assert (Hm1nn : 0 <= shr_m mrs1).
  { rewrite Hm1. apply Z.div_pos; [exact Hm |]. apply Z.pow_pos_nonneg; lia. }
  pose proof (round_nearest_even_bounds (shr_m mrs1) (loc_of_shr_record mrs1))
    as Hr.
  destruct (shr_fexp_spec (round_nearest_even (shr_m mrs1) (loc_of_shr_record mrs1))
              (e + Z.max (fexp prec emax (Zdigits2 m + e) - e) 0) loc_Exact
              ltac:(lia)) as (mrs2 & E2 & Hm2).
  rewrite E2.
  assert (Hm2nn : 0 <= shr_m mrs2).
  { rewrite Hm2. apply Z.div_pos; [lia |]. apply Z.pow_pos_nonneg; lia. }
  destruct (shr_m mrs2) as [| p | p]; [now left | | lia].
  destruct (_ <=? _); [right; right; eauto | right; now left].
Qed.

Lemma shl_align_spec (m : positive) (e e' : Z) :
  let '(m', e'') := shl_align m e e' in
  e'' = Z.min e e' /\ Zpos m' = Zpos m * 2 ^ (e - e'').
Proof.
  unfold shl_align. destruct (e' - e) as [| d | d] eqn:Ed.
  - split; [lia |]. replace (e - e) with 0 by lia. cbn. lia.
  - split; [lia |]. replace (e - e) with 0 by lia. cbn. lia.
  - split; [lia |]. replace (e - e') with (Zpos d) by lia.
    clear Ed. revert m. induction d as [| d IH] using Pos.peano_ind; intros m.
    + cbn. lia.
    + rewrite Pos.iter_succ, Pos2Z.inj_succ, Z.pow_succ_r by lia.
      change (Zpos (Pos.iter xO m d)~0) with (2 * Zpos (Pos.iter xO m d)).
      rewrite IH. lia.
Qed.

Lemma binary_normalize_sign (m e : Z) (szero : bool) :
  exists s,
    binary_normalize prec emax m e szero = S754_zero s \/
    (binary_normalize prec emax m e szero = S754_infinity s /\ (s = true <-> m < 0)) \/
    exists p e',
      binary_normalize prec emax m e szero = S754_finite s p e' /\
      (s = true <-> m < 0).
Proof.
  unfold binary_normalize. destruct m as [| p | p].
  - exists szero. now left.
  - exists false. unfold binary_round.
    destruct (shl_align p e _) as [mz ez].
    destruct (binary_round_aux_sign false (Zpos mz) ez loc_Exact ltac:(lia))
      as [H | [H | (q & e' & H)]]; rewrite H.
    + now left.
    + right. left. split; [reflexivity | split; [discriminate | lia]].
    + right. right. exists q, e'. split; [reflexivity | split; [discriminate | lia]].
  - exists true. unfold binary_round.
    destruct (shl_align p e _) as [mz ez].
    destruct (binary_round_aux_sign true (Zpos mz) ez loc_Exact ltac:(lia))
      as [H | [H | (q & e' & H)]]; rewrite H.
    + now left.
    + right. left. split; [reflexivity | split; [lia | reflexivity]].
    + right. right. exists q, e'. split; [reflexivity | split; [lia | reflexivity]].
Qed.

Lemma binary_normalize_not_nan (m e : Z) (szero : bool) :
  binary_normalize prec emax m e szero <> S754_nan.
Proof.
  destruct (binary_normalize_sign m e szero)
    as (s & [H | [[H _] | (p & e' & H & _)]]); rewrite H; discriminate.
Qed.

Lemma SFleb_finite_le (p q : positive) (e e' : Z) :
  e < e' \/ (e = e' /\ (p <= q)%positive) ->
  SFleb (S754_finite false p e) (S754_finite false q e') = true.
Proof.
  intros H. unfold SFleb, SFcompare. destruct H as [H | [-> H]].
  - apply Z.compare_lt_iff in H. rewrite H. reflexivity.
  - rewrite Z.compare_refl. unfold Pos.le, Pos.compare in H.
    destruct (Pos.compare_cont Eq p q); [reflexivity | reflexivity | now elim H].
Qed.

(** A negative number plus a number of the size of [TWO_PI] is at most that
    number, and is a number. *)
Lemma SFadd_negative_below (x : spec_float) (mt : positive) :
  Zpos mt = twoPiMantissa ->
  SFltb x (S754_zero false) = true ->
  SFleb (SF64add x (S754_finite false mt (-50))) (S754_finite false mt (-50))
  = true.
Proof.
  intros Emt Hneg. destruct x as [s | s | | s mx ex]; try discriminate.
  - destruct s; [reflexivity | discriminate].
  - destruct s; [| discriminate].
    unfold SF64add, SFadd.
    pose proof (shl_align_spec mx ex (Z.min ex (-50))) as Hx.
    pose proof (shl_align_spec mt (-50) (Z.min ex (-50))) as Ht.
    destruct (shl_align mx ex _) as [mx' ex'].
    destruct (shl_align mt (-50) _) as [mt' et'].
    destruct Hx as [Hex Hmx], Ht as [Het Hmt]. cbn [fst cond_Zopp].
    set (ez := Z.min ex (-50)) in *.
    assert (Hez : ez <= -50) by (unfold ez; lia).
    assert (Eet : et' = ez) by lia. subst et'.
    rewrite Emt, Eet in Hmt.
    assert (HM : - Zpos mx' + Zpos mt' < twoPiMantissa * 2 ^ (-50 - ez)).
    { rewrite Hmt. lia. }
    unfold binary_normalize.
    destruct (- Zpos mx' + Zpos mt') as [| p | p] eqn:EM.
    + reflexivity.
    + unfold binary_round.
      pose proof (shl_align_spec p ez (fexp prec emax (Zpos (digits2_pos p) + ez)))
        as Hp.
      destruct (shl_align p ez _) as [mz ez'].
      destruct Hp as [Hez' Hmz].
      assert (Hlt : Zpos mz < twoPiMantissa * 2 ^ (-50 - ez')).
      { rewrite Hmz.
        replace (-50 - ez') with ((-50 - ez) + (ez - ez')) by lia.
        rewrite Z.pow_add_r by lia.
        assert (0 < 2 ^ (ez - ez')) by (apply Z.pow_pos_nonneg; lia).
        rewrite Z.mul_assoc. apply Z.mul_lt_mono_pos_r; assumption. }
      destruct (binary_round_aux_below twoPiMantissa (-50) false (Zpos mz) ez'
                  loc_Exact (proj2 twoPiMantissa_bounds)
                  ltac:(unfold emin, emax, prec; lia) ltac:(lia) ltac:(lia) Hlt) as (m2 & e2 & H0 & He2 & Hm2 & E).
      rewrite E. destruct m2 as [| q | q]; [reflexivity | | lia].
      apply SFleb_finite_le.
      destruct (Z.eq_dec e2 (-50)) as [-> | Hne]; [right | left; lia].
      split; [reflexivity |].
      rewrite Z.sub_diag, (Z.pow_0_r 2), <- Emt in Hm2. lia.
    + unfold binary_round. destruct (shl_align p ez _) as [mz ez'].
      destruct (binary_round_aux_sign true (Zpos mz) ez' loc_Exact ltac:(lia))
        as [H | [H | (q & e' & H)]]; rewrite H; reflexivity.
Qed.

Lemma Prim2SF_TWO_PI : Prim2SF Float64.TWO_PI = SF_TWO_PI.
Proof. vm_compute. reflexivity. Qed.

Lemma SFadd_negative_TWO_PI (x : spec_float) :
  SFltb x (S754_zero false) = true ->
  SFleb (SF64add x SF_TWO_PI) SF_TWO_PI = true.
Proof. apply SFadd_negative_below. reflexivity. Qed.

Lemma SFleb_not_nan (x y : spec_float) : SFleb x y = true -> x <> S754_nan.
Proof. intros H ->. discriminate. Qed.

(** A number that is not below zero is at least zero. *)
Lemma SFleb_zero_of_not_ltb (x : spec_float) :
  x <> S754_nan -> SFltb x (S754_zero false) = false ->
  SFleb (S754_zero false) x = true.
Proof.
  destruct x as [s | [|] | | [|] m e]; intros Hn H;
    try reflexivity; try discriminate; now elim Hn.
Qed.

(** A number that a positive finite number is not at most, is at most it. *)
Lemma SFleb_of_not_leb (x : spec_float) (mt : positive) (et : Z) :
  x <> S754_nan -> SFleb (S754_finite false mt et) x = false ->
  SFleb x (S754_finite false mt et) = true.
Proof.
  destruct x as [s | [|] | | [|] m e]; intros Hn H;
    try reflexivity; try discriminate; try now elim Hn.
  revert H. unfold SFleb, SFcompare.
  rewrite (Z.compare_antisym et e).
  destruct (et ?= e); cbn [CompOpp]; try discriminate; try reflexivity.
  pose proof (Pos.compare_cont_antisym mt m Eq) as Ha.
  change (CompOpp Eq) with Eq in Ha. rewrite <- Ha.
  destruct (Pos.compare_cont Eq mt m); cbn [CompOpp];
    try discriminate; reflexivity.
Qed.

(** Adding or subtracting a finite number does not make a number out of
    what is none, nor the reverse. *)
Lemma SFadd_not_nan (x y : spec_float) :
  x <> S754_nan ->
  (exists s m e, y = S754_finite s m e) \/ (exists s, y = S754_zero s) ->
  SF64add x y <> S754_nan.
Proof.
  intros Hx [(s & m & e & ->) | [s ->]];
    destruct x as [sx | sx | | sx mx ex]; try (now elim Hx);
    unfold SF64add, SFadd; try discriminate.
  - apply binary_normalize_not_nan.
  - destruct sx, s; discriminate.
Qed.

Lemma SFsub_not_nan (x y : spec_float) :
  x <> S754_nan ->
  (exists s m e, y = S754_finite s m e) \/ (exists s, y = S754_zero s) ->
  SF64sub x y <> S754_nan.
Proof.
  intros Hx [(s & m & e & ->) | [s ->]];
    destruct x as [sx | sx | | sx mx ex]; try (now elim Hx);
    unfold SF64sub, SFsub; try discriminate.
  - apply binary_normalize_not_nan.
  - destruct sx, s; discriminate.
Qed.

Lemma finite_SF (x : float) :
  is_finite x = true ->
  (exists s m e, Prim2SF x = S754_finite s m e) \/
  (exists s, Prim2SF x = S754_zero s).
Proof.
  intros H. destruct (is_finite_cases x H) as [Hz | Hf]; [right | left];
    assumption.
Qed.

Lemma finite_not_nan (x : float) : is_finite x = true -> Prim2SF x <> S754_nan.
Proof.
  intros H. destruct (finite_SF x H) as [(s & m & e & ->) | [s ->]];
    discriminate.
Qed.

Lemma add_finite_not_nan (x y : float) :
  Prim2SF x <> S754_nan -> is_finite y = true ->
  Prim2SF (x + y)%float <> S754_nan.
Proof.
  intros Hx Hy. rewrite add_spec. apply SFadd_not_nan; [exact Hx |].
  now apply finite_SF.
Qed.

Lemma sub_finite_not_nan (x y : float) :
  Prim2SF x <> S754_nan -> is_finite y = true ->
  Prim2SF (x - y)%float <> S754_nan.
Proof.
  intros Hx Hy. rewrite sub_spec. apply SFsub_not_nan; [exact Hx |].
  now apply finite_SF.
Qed.

Lemma TWO_PI_finite : is_finite Float64.TWO_PI = true.
Proof. vm_compute. reflexivity. Qed.

(** ** The loops of [simplifyAngle] on numbers *)

(** The first loop: what it returns is a number, and at most [TWO_PI]. *)
Lemma whileAbove_exit (fuel : nat) :
  forall x a : float,
    Prim2SF x <> S754_nan ->
    Float64.whileAbove fuel x = Some a ->
    Prim2SF a <> S754_nan /\ (a <=? Float64.TWO_PI)%float = true.
Proof.
  assert (Hexit : forall x : float,
            Prim2SF x <> S754_nan -> (Float64.TWO_PI <=? x)%float = false ->
            (x <=? Float64.TWO_PI)%float = true).
  { intros x Hx H. rewrite leb_spec, Prim2SF_TWO_PI in *.
    now apply SFleb_of_not_leb. }
  induction fuel as [| fuel IH]; intros x a Hx; cbn [Float64.whileAbove];
    destruct (Float64.TWO_PI <=? x)%float eqn:Hge; intros H.
  - discriminate.
  - injection H as <-. split; [exact Hx | now apply Hexit].
  - apply (IH _ _ (sub_finite_not_nan x _ Hx TWO_PI_finite) H).
  - injection H as <-. split; [exact Hx | now apply Hexit].
Qed.

(** The second loop: from a number that is at most [TWO_PI], what it
    returns lies between zero and [TWO_PI], both included. *)
Lemma whileBelow_range (fuel : nat) :
  forall a r : float,
    (a <=? Float64.TWO_PI)%float = true ->
    Float64.whileBelow fuel a = Some r ->
    (0 <=? r)%float = true /\ (r <=? Float64.TWO_PI)%float = true.
Proof.
  assert (Hexit : forall a : float,
            (a <=? Float64.TWO_PI)%float = true -> (a <? 0)%float = false ->
            (0 <=? a)%float = true).
  { intros a Ha H. rewrite leb_spec, ltb_spec, ?Prim2SF_zero in *.
    apply SFleb_zero_of_not_ltb; [| exact H].
    now apply SFleb_not_nan in Ha. }
  assert (Hstep : forall a : float,
            (a <? 0)%float = true ->
            (a + Float64.TWO_PI <=? Float64.TWO_PI)%float = true).
  { intros a H. rewrite leb_spec, add_spec, Prim2SF_TWO_PI.
    rewrite ltb_spec, Prim2SF_zero in H.
    now apply SFadd_negative_TWO_PI. }
  induction fuel as [| fuel IH]; intros a r Ha; cbn [Float64.whileBelow];
    destruct (a <? 0)%float eqn:Hneg; intros H.
  - discriminate.
  - injection H as <-. split; [now apply Hexit | exact Ha].
  - apply (IH _ _ (Hstep a Hneg) H).
  - injection H as <-. split; [now apply Hexit | exact Ha].
Qed.

Lemma simplifyAngle_closed_range (fuel : nat) (angle r : float) :
  Prim2SF angle <> S754_nan ->
  Float64.simplifyAngle fuel angle = Some r ->
  (0 <=? r)%float = true /\ (r <=? Float64.TWO_PI)%float = true.
Proof.
  intros Hn. unfold Float64.simplifyAngle.
  destruct (Float64.whileAbove fuel angle) as [a |] eqn:Ea; [| discriminate].
  destruct (whileAbove_exit fuel angle a Hn Ea) as [_ Ha].
  now apply whileBelow_range.
Qed.

Lemma constrainAngle_closed_range (fuel : nat) (angle anchor constraint r : float) :
  is_finite angle = true -> is_finite anchor = true ->
  is_finite constraint = true ->
  Float64.constrainAngle fuel angle anchor constraint = Some r ->
  (0 <=? r)%float = true /\ (r <=? Float64.TWO_PI)%float = true.
Proof.
  intros Ha Hb Hc. unfold Float64.constrainAngle.
  destruct (Float64.relativeAngleDiff fuel angle anchor) as [d |]; [| discriminate].
  destruct (abs d <=? constraint)%float; [| destruct (constraint <? d)%float];
    apply simplifyAngle_closed_range.
  - now apply finite_not_nan.
  - apply sub_finite_not_nan; [now apply finite_not_nan | exact Hc].
  - apply add_finite_not_nan; [now apply finite_not_nan | exact Hc].
Qed.

End Rounding.

(** C10, as amended.  In binary64 arithmetic, for finite arguments, every
    value returned by [constrainAngle], hence every angle that
    [applyConstraint] stores in a joint, is a number of the closed interval
    from 0 to the double [TWO_PI]: it is never negative and never above
    [TWO_PI], and [TWO_PI] itself is returned (for the angle [- 2^-70],
    anchor 0 and range 1, where the sum of the angle and [TWO_PI] rounds to
    [TWO_PI]).  In exact arithmetic the interval is [[0, TWO_PI)], and for a
    window centred on the zero angle with half-width [range] at most [PI]
    (such as [[- PI / 4, PI / 4]]) the stored angle lies in [[0, range]] or
    in [[TWO_PI - range, TWO_PI)]. *)
Theorem solvedAngle_closed_range :
  (forall fuel (angle anchor constraint r : float),
     is_finite angle = true -> is_finite anchor = true ->
     is_finite constraint = true ->
     Float64.constrainAngle fuel angle anchor constraint = Some r ->
     (0 <=? r)%float = true /\ (r <=? Float64.TWO_PI)%float = true) /\
  (forall fuel (curAngle normal angleRange angleOffset r : float),
     is_finite curAngle = true -> is_finite (normal + angleOffset)%float = true ->
     is_finite angleRange = true ->
     Float64.solvedAngle fuel curAngle normal angleRange angleOffset = Some r ->
     (0 <=? r)%float = true /\ (r <=? Float64.TWO_PI)%float = true) /\
  Float64.constrainAngle 10 (-0x1p-70)%float 0%float 1%float
  = Some Float64.TWO_PI /\
  (forall angle anchor constraint,
     0 <= constrainAngle angle anchor constraint < TWO_PI) /\
  (forall anchor normal distance angleRange angleOffset p,
     0 <= LimbPoint.angle
            (LimbPoint.applyConstraint anchor normal distance angleRange
               angleOffset p) < TWO_PI) /\
  (forall anchor distance range p,
     0 <= range <= PI ->
     let a := LimbPoint.angle
                (LimbPoint.applyConstraint anchor 0 distance range 0 p) in
     0 <= a <= range \/ TWO_PI - range <= a < TWO_PI).
Proof.
  split; [| split; [| split]].
  - intros fuel angle anchor constraint r. apply constrainAngle_closed_range.
  - intros fuel curAngle normal angleRange angleOffset r.
    unfold Float64.solvedAngle. apply constrainAngle_closed_range.
  - vm_compute. reflexivity.
  - exact solvedAngle_exact.
Qed.

Lemma solvedAngle_closed_range_witness :
  is_finite (-0x1p-70)%float = true /\ is_finite 0%float = true /\
  is_finite 1%float = true /\
  Float64.constrainAngle 10 (-0x1p-70)%float 0%float 1%float
  = Some Float64.TWO_PI /\
  (0 <=? Float64.TWO_PI)%float = true /\
  (Float64.TWO_PI <=? Float64.TWO_PI)%float = true.
Proof.
  assert (Ha : is_finite (-0x1p-70)%float = true) by reflexivity.
  assert (Hb : is_finite 0%float = true) by reflexivity.
  assert (Hc : is_finite 1%float = true) by reflexivity.
  assert (E : Float64.constrainAngle 10 (-0x1p-70)%float 0%float 1%float
              = Some Float64.TWO_PI) by (vm_compute; reflexivity).
  split; [exact Ha |]. split; [exact Hb |]. split; [exact Hc |].
  split; [exact E |].
  exact (proj1 solvedAngle_closed_range 10%nat (-0x1p-70)%float 0%float
           1%float Float64.TWO_PI Ha Hb Hc E).
Defined.

(** The half-open interval fails in binary64 arithmetic:
    [constrainAngle(5, 0.3 - 0.1, 0.2)] is the double [TWO_PI] (the
    doubles nearest to 0.3, 0.1 and 0.2 are written out).  The anchor
    [0.3 - 0.1] is the double just below [0.2], the angle 5 lies beyond the
    window on its lower side, and the lower boundary, [anchor - 0.2], is
    [- 2^-55]; its sum with [TWO_PI] rounds to [TWO_PI]. *)
Lemma solvedAngle_closed_range_counterexample :
  exists r : float,
    Float64.constrainAngle 10 5%float
      (0x1.3333333333333p-2 - 0x1.999999999999ap-4)%float
      0x1.999999999999ap-3%float = Some r /\
    r = Float64.TWO_PI /\ (r <? Float64.TWO_PI)%float = false.
Proof.
  exists Float64.TWO_PI. split; [vm_compute; reflexivity |].
  split; [reflexivity | vm_compute; reflexivity].
Qed.

(** ** Angles too large for the loops *)



(** ** The pointer, nearer than the square root of the smallest double *)

(** In binary64 arithmetic the square of a distance under about [2^-537]
    rounds to zero: [normalize] then leaves the difference as it is, and the
    point is put at 100 times its distance from the pointer, on the same
    side: a point at [(2^-600, 0)] with the pointer at the origin ends at
    [(100 * 2^-600, 0)], and a point at the origin with the pointer at
    [(2^-600, 0)] ends at [(- 99 * 2^-600, 0)]. *)
Lemma collideWithPointer_underflow :
  let at_ (x : float) :=
    Float64.BlobPoint.mk (Float64.Vector2.mk x 0) (Float64.Vector2.mk x 0)
      (Float64.Vector2.mk 0 0) 0 in
  (Float64.BlobPoint.pos
     (Float64.BlobPoint.collideWithPointer (Some (Float64.Vector2.mk 0 0))
        (at_ 0x1p-600))
   = Float64.Vector2.mk (100 * 0x1p-600) 0 /\
   Float64.BlobPoint.pos
     (Float64.BlobPoint.collideWithPointer
        (Some (Float64.Vector2.mk 0x1p-600 0)) (at_ 0))
   = Float64.Vector2.mk (-99 * 0x1p-600) 0)%float.
Proof. split; vm_compute; reflexivity. Qed.

(** ** The chord sum *)

(** C9, as amended.  In exact arithmetic, for every constructed blob with a
    number of points other than zero, [chordLength * numPoints] is
    [circumference]; in binary64 arithmetic the identity holds for the
    blobs that the program and the specification's scenario build (16
    points of radius 128 or 27, 8 points of radius 50). *)
Theorem chord_sum :
  (forall origin numPoints radius puffiness b,
     numPoints <> 0%Z ->
     Blob.constructor origin numPoints radius puffiness = Normal b ->
     Blob.chordLength b * IZR numPoints = Blob.circumference b) /\
  (Float64.Blob.chordLength 128 16 * 16 = Float64.Blob.circumference 128 /\
   Float64.Blob.chordLength 27 16 * 16 = Float64.Blob.circumference 27 /\
   Float64.Blob.chordLength 50 8 * 8 = Float64.Blob.circumference 50)%float.
Proof.
  split.
  - intros origin numPoints radius puffiness b Hn E. injection E as <-.
    cbn [Blob.chordLength Blob.circumference].
    field. apply not_0_IZR. exact Hn.
  - repeat split; vm_compute; reflexivity.
Qed.

Lemma chord_sum_witness :
  (3 <> 0)%Z /\
  Blob.constructor (Vector2.mk 100 100) 3 50 1 = Normal threePointBlob /\
  Blob.chordLength threePointBlob * IZR 3 = Blob.circumference threePointBlob.
Proof.
  assert (H : (3 <> 0)%Z) by lia.
  assert (E : Blob.constructor (Vector2.mk 100 100) 3 50 1 = Normal threePointBlob)
    by reflexivity.
  split; [exact H |]. split; [exact E |].
  exact (proj1 chord_sum (Vector2.mk 100 100) 3%Z 50 1 threePointBlob H E).
Defined.

(** C9 fails as stated: in binary64 arithmetic, for 15 points of radius 10
    the product [chordLength * numPoints] is not [circumference]. *)
Lemma chord_sum_counterexample :
  PrimFloat.eqb
    (Float64.Blob.chordLength 10 15 * 15)%float
    (Float64.Blob.circumference 10) = false.
Proof. vm_compute. reflexivity. Qed.

End Float64Facts.
